(** * Image ingestion of the blog backend (app.js)

    A shallow embedding of the upload route of [app.js]:
    the multer configuration ([upload]), [processImage], and the handler of
    [POST /api/admin/upload].  The libraries the route calls (sharp, the
    file system, the clock and the random generator) are an explicit
    environment; durable storage is a finite map from paths to contents,
    and every call that leaves the process is recorded in a log.

    Beside the route: [generateSlug], the SQL text and bound values of
    [GET /api/posts], and the stored name of the earlier disk-storage
    upload. *)

From Stdlib Require Import ZArith QArith Qround Qminmax Lia Bool Ascii DecimalString.
From Stdlib.Strings Require Import Byte.
From stdpp Require Import base option gmap strings.

Local Open Scope Z_scope.

(** ** JavaScript primitives used by the route *)

Module JS.

(** [String.prototype.toLowerCase], one code unit at a time.  A character
    is a code unit below 256; the capitals among them are A to Z and, above
    the ASCII range, the codes 192 to 222 without 215 (the multiplication
    sign); each is 32 below its lower-case form. *)
Definition lower_char (c : ascii) : ascii :=
  let n := N_of_ascii c in
  if ((65 <=? n) && (n <=? 90))%N then ascii_of_N (n + 32)
  else if ((192 <=? n) && (n <=? 222) && negb (n =? 215))%N then ascii_of_N (n + 32)
  else c.

Fixpoint toLowerCase (s : string) : string :=
  match s with
  | EmptyString => EmptyString
  | String c r => String (lower_char c) (toLowerCase r)
  end.

(** [s.startsWith(p)] *)
Definition startsWith (s p : string) : bool := String.prefix p s.

(** [s.slice(start, end)] for [0 <= start], [0 <= end]. *)
Definition slice (s : string) (start end_ : Z) : string :=
  String.substring (Z.to_nat start) (Z.to_nat (end_ - start)) s.

(** [s.charCodeAt(i)] for [0 <= i < s.length]; [None] stands for NaN. *)
Definition charAt (s : string) (i : nat) : option ascii := String.get i s.

Definition strlen (s : string) : Z := Z.of_nat (String.length s).

(** An integer inside a template literal: its decimal digits (the
    values printed here are far below 1e21). *)
Definition num (z : Z) : string := NilZero.string_of_int (Z.to_int z).

(** [Math.round x] is [floor (x + 0.5)]. *)
Definition Math_round (x : Q) : Z := Qfloor (x + (1 # 2)).

(** [a || b] on strings: the empty string is falsy. *)
Definition or_string (a b : string) : string :=
  match a with EmptyString => b | _ => a end.

End JS.

(** ** Double-precision numbers

    A double is the rational it stands for. *)

Module Double.

(** The exponent [e] with [2^e <= x < 2^(e+1)], for [0 < x]. *)
Definition binade (x : Q) : Z :=
  if Qle_bool 1 x then Z.log2 (Qfloor x) else - Z.log2_up (Qceiling (/ x)).

(** The exponent of the spacing of doubles around [x]: 53 significant
    bits, and never finer than the subnormal spacing [2^-1074]. *)
Definition quantum (x : Q) : Z := Z.max (binade x - 52) (-1074).

(** The nearest integer, a tie going to the even one. *)
Definition round_half_even (m : Q) : Z :=
  let f := Qfloor m in
  match (m - inject_Z f ?= 1 # 2)%Q with
  | Lt => f
  | Gt => f + 1
  | Eq => if Z.even f then f else f + 1
  end.

Definition nearest_pos (x : Q) : Q :=
  let q := quantum x in
  if 0 <=? q then inject_Z (round_half_even (x / inject_Z (2 ^ q)) * 2 ^ q)
  else inject_Z (round_half_even (x * inject_Z (2 ^ (- q)))) / inject_Z (2 ^ (- q)).

(** The double nearest to [x] (round to nearest, ties to even), for
    magnitudes below [2^1024]. *)
Definition nearest (x : Q) : Q :=
  match (x ?= 0)%Q with
  | Eq => 0%Q
  | Gt => nearest_pos x
  | Lt => (- nearest_pos (- x))%Q
  end.

(** [a * b] on doubles. *)
Definition mul (a b : Q) : Q := nearest (a * b).

End Double.

(** ** Node's [path] module, POSIX flavour

    [extname] and [basename] follow the right-to-left scans of Node's
    implementation: one pass over the characters from the last index down,
    stopping at the first separator that is not a trailing one. *)

Module Path.

Definition slash : ascii := "/"%char.
Definition dot : ascii := "."%char.

Definition is_char (c : ascii) (o : option ascii) : bool :=
  match o with
  | Some d => if ascii_dec d c then true else false
  | None => false
  end.

Definition same_char (a b : option ascii) : bool :=
  match a, b with
  | Some x, Some y => if ascii_dec x y then true else false
  | _, _ => false
  end.

(** State of the scan of [extname]. *)
Record ext_state := {
  startDot : Z;
  startPart : Z;
  ext_end : Z;
  ext_matchedSlash : bool;
  preDotState : Z
}.

(** [n] is the number of indices still to visit: the body runs at
    [i = n - 1]. *)
Fixpoint extname_loop (path : string) (n : nat) (st : ext_state) : ext_state :=
  match n with
  | O => st
  | S i =>
    let code := JS.charAt path i in
    if is_char slash code then
      if negb (ext_matchedSlash st) then
        {| startDot := startDot st; startPart := Z.of_nat i + 1;
           ext_end := ext_end st; ext_matchedSlash := ext_matchedSlash st;
           preDotState := preDotState st |}
      else extname_loop path i st
    else
      let st1 :=
        if ext_end st =? -1 then
          {| startDot := startDot st; startPart := startPart st;
             ext_end := Z.of_nat i + 1; ext_matchedSlash := false;
             preDotState := preDotState st |}
        else st in
      let st2 :=
        if is_char dot code then
          if startDot st1 =? -1 then
            {| startDot := Z.of_nat i; startPart := startPart st1;
               ext_end := ext_end st1; ext_matchedSlash := ext_matchedSlash st1;
               preDotState := preDotState st1 |}
          else if negb (preDotState st1 =? 1) then
            {| startDot := startDot st1; startPart := startPart st1;
               ext_end := ext_end st1; ext_matchedSlash := ext_matchedSlash st1;
               preDotState := 1 |}
          else st1
        else if negb (startDot st1 =? -1) then
          {| startDot := startDot st1; startPart := startPart st1;
             ext_end := ext_end st1; ext_matchedSlash := ext_matchedSlash st1;
             preDotState := -1 |}
        else st1 in
      extname_loop path i st2
  end.

Definition extname (path : string) : string :=
  let st := extname_loop path (String.length path)
              {| startDot := -1; startPart := 0; ext_end := -1;
                 ext_matchedSlash := true; preDotState := 0 |} in
  if (startDot st =? -1) || (ext_end st =? -1) || (preDotState st =? 0)
     || ((preDotState st =? 1) && (startDot st =? ext_end st - 1)
         && (startDot st =? startPart st + 1))
  then EmptyString
  else JS.slice path (startDot st) (ext_end st).

(** State of the scan of [basename]. *)
Record base_state := {
  b_start : Z;
  b_end : Z;
  b_matchedSlash : bool;
  extIdx : Z;
  firstNonSlashEnd : Z
}.

(** The scan used when a non-empty suffix no longer than the path is
    given. *)
Fixpoint basename_suffix_loop (path suffix : string) (n : nat) (st : base_state)
  : base_state :=
  match n with
  | O => st
  | S i =>
    let code := JS.charAt path i in
    if is_char slash code then
      if negb (b_matchedSlash st) then
        {| b_start := Z.of_nat i + 1; b_end := b_end st;
           b_matchedSlash := b_matchedSlash st; extIdx := extIdx st;
           firstNonSlashEnd := firstNonSlashEnd st |}
      else basename_suffix_loop path suffix i st
    else
      let st1 :=
        if firstNonSlashEnd st =? -1 then
          {| b_start := b_start st; b_end := b_end st;
             b_matchedSlash := false; extIdx := extIdx st;
             firstNonSlashEnd := Z.of_nat i + 1 |}
        else st in
      let st2 :=
        if 0 <=? extIdx st1 then
          if same_char code (JS.charAt suffix (Z.to_nat (extIdx st1))) then
            if extIdx st1 - 1 =? -1 then
              {| b_start := b_start st1; b_end := Z.of_nat i;
                 b_matchedSlash := b_matchedSlash st1; extIdx := extIdx st1 - 1;
                 firstNonSlashEnd := firstNonSlashEnd st1 |}
            else
              {| b_start := b_start st1; b_end := b_end st1;
                 b_matchedSlash := b_matchedSlash st1; extIdx := extIdx st1 - 1;
                 firstNonSlashEnd := firstNonSlashEnd st1 |}
          else
            {| b_start := b_start st1; b_end := firstNonSlashEnd st1;
               b_matchedSlash := b_matchedSlash st1; extIdx := -1;
               firstNonSlashEnd := firstNonSlashEnd st1 |}
        else st1 in
      basename_suffix_loop path suffix i st2
  end.

(** The scan used without a suffix. *)
Fixpoint basename_plain_loop (path : string) (n : nat) (st : base_state)
  : base_state :=
  match n with
  | O => st
  | S i =>
    if is_char slash (JS.charAt path i) then
      if negb (b_matchedSlash st) then
        {| b_start := Z.of_nat i + 1; b_end := b_end st;
           b_matchedSlash := b_matchedSlash st; extIdx := extIdx st;
           firstNonSlashEnd := firstNonSlashEnd st |}
      else basename_plain_loop path i st
    else if b_end st =? -1 then
      basename_plain_loop path i
        {| b_start := b_start st; b_end := Z.of_nat i + 1;
           b_matchedSlash := false; extIdx := extIdx st;
           firstNonSlashEnd := firstNonSlashEnd st |}
    else basename_plain_loop path i st
  end.

Definition basename (path suffix : string) : string :=
  let init := {| b_start := 0; b_end := -1; b_matchedSlash := true;
                 extIdx := JS.strlen suffix - 1; firstNonSlashEnd := -1 |} in
  if (0 <? JS.strlen suffix) && (JS.strlen suffix <=? JS.strlen path) then
    if String.eqb suffix path then EmptyString
    else
      let st := basename_suffix_loop path suffix (String.length path) init in
      let end_ :=
        if b_start st =? b_end st then firstNonSlashEnd st
        else if b_end st =? -1 then JS.strlen path
        else b_end st in
      JS.slice path (b_start st) end_
  else
    let st := basename_plain_loop path (String.length path) init in
    if b_end st =? -1 then EmptyString
    else JS.slice path (b_start st) (b_end st).

(** [path.join(dir, name)] for a directory without separators and a
    one-segment [name] other than [.] and [..]: normalisation has
    nothing to rewrite, the two are joined by one separator. *)
Definition join (dir name : string) : string := dir +:+ "/" +:+ name.

End Path.

(** ** The image library (sharp) *)

Definition Buffer := list Byte.byte.

Module Sharp.

(** The fields of [metadata()] the route reads. *)
Record Metadata := { width : Z; height : Z }.

(** The one [fit] the route asks for. *)
Inductive Fit := inside.

(** Arguments of [resize(width, height, options)]. *)
Record ResizeOptions := {
  r_width : Z;
  r_height : Z;
  fit : Fit;
  withoutEnlargement : bool
}.

(** Arguments of [webp(options)]. *)
Record WebpOptions := { quality : Z; effort : Z }.

(** Modelled from the spec: the dimension arithmetic of the library's
    resize, which is not part of the repository.  One factor, the
    smaller of the two ratios target/source, scales both dimensions;
    each result is rounded to the nearest integer and is at least 1;
    without enlargement the factor never exceeds 1. *)
Definition scaleFactor (o : ResizeOptions) (w h : Z) : Q :=
  let s := Qmin (inject_Z (r_width o) / inject_Z w)
                (inject_Z (r_height o) / inject_Z h) in
  if withoutEnlargement o then Qmin 1 s else s.

(** Modelled from the spec: one scaled side, rounded to the nearest
    integer, at least 1. *)
Definition scaleDim (s : Q) (d : Z) : Z :=
  Z.max 1 (JS.Math_round (s * inject_Z d)).

(** Modelled from the spec: the size of the output of a resize, which
    the library computes. *)
Definition resize_dims (o : ResizeOptions) (w h : Z) : Z * Z :=
  match fit o with
  | inside => (scaleDim (scaleFactor o w h) w, scaleDim (scaleFactor o w h) h)
  end.

End Sharp.

(** ** Errors, storage and the environment *)

(** A thrown JavaScript error: [new Error(message)], or multer's error
    with its code. *)
Inductive Exn :=
| Error (message : string)
| MulterError (code message : string).

Definition exn_message (e : Exn) : string :=
  match e with
  | Error m => m
  | MulterError _ m => m
  end.

(** What [toFile] did: the whole output is at the path, or the call
    rejected, having left nothing or some bytes at the path. *)
Inductive WriteOutcome :=
| Written (bytes : Buffer)
| WriteFailed (e : Exn) (left : option Buffer).

(** Calls that leave the process. *)
Inductive Event :=
| EvMetadata
| EvToFile (path : string)
| EvStat (path : string).

(** What the route cannot decide: the clock, the random draw, the image
    library, and faults of the file system.  [Math_random] is read as the
    double nearest to it. *)
Record Env := {
  Date_now : Z;
  Math_random : Q;
  metadata_of : Buffer -> Exn + Sharp.Metadata;
  toFile_of : Buffer -> option Sharp.ResizeOptions -> Sharp.WebpOptions -> WriteOutcome;
  stat_fault : string -> option Exn
}.

(** Durable storage (the [uploads] directory and the rest of the file
    system) and the log of outside calls, oldest first. *)
Record World := {
  files : gmap string Buffer;
  log : list Event
}.

Definition record_event (ev : Event) (w : World) : World :=
  {| files := files w; log := log w ++ [ev] |}.

Definition write_file (path : string) (bytes : Buffer) (w : World) : World :=
  {| files := <[path := bytes]> (files w); log := log w |}.

(** ** Computations that may throw *)

Inductive Result (A : Type) :=
| Ok (a : A)
| Throw (e : Exn).
Arguments Ok {A} a.
Arguments Throw {A} e.

Definition M (A : Type) : Type := World -> Result A * World.

Definition ret {A} (a : A) : M A := fun w => (Ok a, w).
Definition throw {A} (e : Exn) : M A := fun w => (Throw e, w).
Definition bind {A B} (m : M A) (k : A -> M B) : M B :=
  fun w => match m w with
           | (Ok a, w') => k a w'
           | (Throw e, w') => (Throw e, w')
           end.
Definition try_catch {A} (m : M A) (h : Exn -> M A) : M A :=
  fun w => match m w with
           | (Ok a, w') => (Ok a, w')
           | (Throw e, w') => h e w'
           end.

Notation "'await' x <- m ; k" := (bind m (fun x => k))
  (at level 10, x name, m at level 100, k at level 200, only parsing).

(** [await sharp(buffer).metadata()] *)
Definition sharp_metadata (E : Env) (buffer : Buffer) : M Sharp.Metadata :=
  fun w => match metadata_of E buffer with
           | inr md => (Ok md, record_event EvMetadata w)
           | inl e => (Throw e, record_event EvMetadata w)
           end.

(** [await sharpInstance.webp(options).toFile(outputPath)] *)
Definition sharp_toFile (E : Env) (buffer : Buffer)
    (resize : option Sharp.ResizeOptions) (webp : Sharp.WebpOptions)
    (outputPath : string) : M unit :=
  fun w =>
    let w1 := record_event (EvToFile outputPath) w in
    match toFile_of E buffer resize webp with
    | Written bytes => (Ok tt, write_file outputPath bytes w1)
    | WriteFailed e None => (Throw e, w1)
    | WriteFailed e (Some part) => (Throw e, write_file outputPath part w1)
    end.

(** [await fs.promises.stat(path)], reduced to [stats.size]. *)
Definition fs_stat (E : Env) (path : string) : M Z :=
  fun w =>
    let w1 := record_event (EvStat path) w in
    match stat_fault E path with
    | Some e => (Throw e, w1)
    | None =>
      match files w !! path with
      | Some bytes => (Ok (Z.of_nat (length bytes)), w1)
      | None => (Throw (Error "ENOENT: no such file or directory"), w1)
      end
    end.

(** ** [processImage] *)

Definition maxWidth : Z := 1920.
Definition maxHeight : Z := 1080.
Definition targetQuality : Z := 85.

Record ProcessedImage := {
  p_filename : string;
  p_originalName : string;
  p_size : Z;
  p_width : Z;
  p_height : Z
}.

(** Lines 52-58: the stored filename. *)
Definition baseName (originalName : string) : string :=
  let fileExtension := JS.toLowerCase (Path.extname originalName) in
  Path.basename originalName fileExtension.

(** Line 55: [Math.round(Math.random() * 1E9)].  The draw is a double, the
    product is the double nearest to the exact product, and [Math.round]
    is exact on it. *)
Definition uniqueSuffix (E : Env) : Z :=
  JS.Math_round (Double.mul (Double.nearest (Math_random E)) 1000000000).

Definition outputFilename (E : Env) (originalName : string) : string :=
  JS.num (Date_now E) +:+ "-" +:+ JS.num (uniqueSuffix E) +:+ "-"
    +:+ baseName originalName +:+ ".webp".

(** Lines 72-77: the resize the route asks of the library, if any. *)
Definition resizeOptions (metadata : Sharp.Metadata) : option Sharp.ResizeOptions :=
  if (Sharp.width metadata >? maxWidth) || (Sharp.height metadata >? maxHeight)
  then Some {| Sharp.r_width := maxWidth; Sharp.r_height := maxHeight;
               Sharp.fit := Sharp.inside; Sharp.withoutEnlargement := true |}
  else None.

Definition processError : Exn :=
  Error "Failed to process image. Please try a different image.".

Definition processImage (E : Env) (buffer : Buffer) (originalName : string)
  : M ProcessedImage :=
  try_catch
    (let outputFilename := outputFilename E originalName in
     let outputPath := Path.join "uploads" outputFilename in
     await metadata <- sharp_metadata E buffer ;
     await written <- sharp_toFile E buffer (resizeOptions metadata)
            {| Sharp.quality := targetQuality; Sharp.effort := 6 |} outputPath ;
     await size <- fs_stat E outputPath ;
     ret {| p_filename := outputFilename;
            p_originalName := originalName;
            p_size := size;
            p_width := if Sharp.width metadata >? maxWidth then maxWidth
                       else Sharp.width metadata;
            p_height := if Sharp.height metadata >? maxHeight then maxHeight
                        else Sharp.height metadata |})
    (fun error => throw processError).

(** ** The resize policy: what is stored for a source of given size *)

Record ResizeTarget := {
  t_width : Z;
  t_height : Z;
  wasResized : bool
}.

Definition resizePolicy (sourceWidth sourceHeight : Z) : ResizeTarget :=
  match resizeOptions {| Sharp.width := sourceWidth; Sharp.height := sourceHeight |} with
  | None => {| t_width := sourceWidth; t_height := sourceHeight; wasResized := false |}
  | Some o =>
    let d := Sharp.resize_dims o sourceWidth sourceHeight in
    {| t_width := fst d; t_height := snd d; wasResized := true |}
  end.

(** ** The upload middleware (multer, memory storage) *)

Record FilePart := {
  originalname : string;
  mimetype : string;
  content : Buffer
}.

(** [req.file] as the memory storage leaves it. *)
Record File := {
  f_originalname : string;
  f_mimetype : string;
  buffer : Buffer
}.

Record Request := {
  session_userId : option Z;
  image_part : option FilePart
}.

Definition fileSize : Z := 50 * 1024 * 1024.

(** Lines 39-46: [cb(null, true)] is [inr true], [cb(err)] is [inl err]. *)
Definition fileFilter (file : FilePart) : Exn + bool :=
  if JS.startsWith (mimetype file) "image/" then inr true
  else inl (Error "Only image files are allowed!").

(** [upload.single('image')]: the filter is asked when the part's headers
    arrive, before its bytes are read; the size limit trips while the
    bytes are read, once they are more than [limits.fileSize]; with the
    memory storage nothing is written to durable storage. *)
Definition upload_single (part : option FilePart) : Exn + option File :=
  match part with
  | None => inr None
  | Some file =>
    match fileFilter file with
    | inl err => inl err
    | inr false => inr None
    | inr true =>
      if fileSize <? Z.of_nat (length (content file))
      then inl (MulterError "LIMIT_FILE_SIZE" "File too large")
      else inr (Some {| f_originalname := originalname file;
                        f_mimetype := mimetype file;
                        buffer := content file |})
    end
  end.

(** ** The route [POST /api/admin/upload] *)

Inductive Body :=
| ErrorBody (error : string)
| UploadBody (url filename originalName : string) (size : Z)
             (dimensions message : string).

(** The route answers with JSON, or hands an error to the framework's
    error handling. *)
Inductive Reply :=
| Json (status : Z) (body : Body)
| NextError (e : Exn).

(** [req.session.userId] in a condition: [undefined] and [0] are falsy. *)
Definition authenticated (req : Request) : bool :=
  match session_userId req with
  | Some id => negb (id =? 0)
  | None => false
  end.

Definition dimensions_string (p : ProcessedImage) : string :=
  JS.num (p_width p) +:+ "x" +:+ JS.num (p_height p).

(** Lines 355-379: the handler, once [req.file] is set. *)
Definition upload_handler (E : Env) (file : option File) : World -> Reply * World :=
  fun w =>
    match file with
    | None => (Json 400 (ErrorBody "No file uploaded"), w)
    | Some f =>
      match processImage E (buffer f) (f_originalname f) w with
      | (Ok processedImage, w') =>
        (Json 200 (UploadBody ("/uploads/" +:+ p_filename processedImage)
                              (p_filename processedImage)
                              (p_originalName processedImage)
                              (p_size processedImage)
                              (dimensions_string processedImage)
                              "Image uploaded and optimized successfully"), w')
      | (Throw error, w') =>
        (Json 500 (ErrorBody (JS.or_string (exn_message error)
                                "Failed to upload and process image")), w')
      end
    end.

(** [requireAuth], then [upload.single('image')], then the handler. *)
Definition upload_route (E : Env) (req : Request) : World -> Reply * World :=
  fun w =>
    if authenticated req then
      match upload_single (image_part req) with
      | inl err => (NextError err, w)
      | inr file => upload_handler E file w
      end
    else (Json 401 (ErrorBody "Authentication required"), w).

(** What a consumer reads off a reply. *)
Definition succeeded (r : Reply) : bool :=
  match r with
  | Json 200 (UploadBody _ _ _ _ _ _) => true
  | _ => false
  end.

Definition reply_dimensions (r : Reply) : option string :=
  match r with
  | Json _ (UploadBody _ _ _ _ dimensions _) => Some dimensions
  | _ => None
  end.

(** ** Concrete environments and requests *)

Module Demo.

Definition webp_bytes : Buffer :=
  [Byte.x52; Byte.x49; Byte.x46; Byte.x46; Byte.x57; Byte.x45; Byte.x42; Byte.x50].

Definition jpeg_bytes : Buffer := [Byte.xff; Byte.xd8; Byte.xff].

(** Every step succeeds; the source has the given size. *)
Definition env (w h : Z) : Env :=
  {| Date_now := 1700000000000;
     Math_random := 0.123456789;
     metadata_of := fun _ => inr {| Sharp.width := w; Sharp.height := h |};
     toFile_of := fun _ _ _ => Written webp_bytes;
     stat_fault := fun _ => None |}.


Definition empty_world : World := {| files := ∅; log := [] |}.

Definition image_request (name : string) : Request :=
  {| session_userId := Some 1;
     image_part := Some {| originalname := name; mimetype := "image/jpeg";
                           content := jpeg_bytes |} |}.

Definition text_request : Request :=
  {| session_userId := Some 1;
     image_part := Some {| originalname := "notes.txt"; mimetype := "text/plain";
                           content := jpeg_bytes |} |}.

Definition empty_request : Request :=
  {| session_userId := Some 1; image_part := None |}.

(** 60 MiB of zero bytes. *)
Definition big_content : Buffer :=
  repeat Byte.x00 (Z.to_nat (60 * 1024 * 1024)).

Definition big_request (type : string) : Request :=
  {| session_userId := Some 1;
     image_part := Some {| originalname := "big.png"; mimetype := type;
                           content := big_content |} |}.


End Demo.

(** ** Strings, character by character *)

Module Str.

Fixpoint all_chars (P : ascii -> bool) (s : string) : bool :=
  match s with
  | EmptyString => true
  | String c r => P c && all_chars P r
  end.

Fixpoint some_char (P : ascii -> bool) (s : string) : bool :=
  match s with
  | EmptyString => false
  | String c r => P c || some_char P r
  end.

Fixpoint count_char (P : ascii -> bool) (s : string) : nat :=
  match s with
  | EmptyString => O
  | String c r => (if P c then 1 else 0) + count_char P r
  end.

End Str.

Definition not_slash (c : ascii) : bool := negb (Path.is_char Path.slash (Some c)).

(** No path separator anywhere in the string. *)
Definition no_slash (s : string) : bool := Str.all_chars not_slash s.

(** ** [generateSlug] *)

Module Slug.

(** Titles are strings of ASCII characters. *)
Definition code (c : ascii) : N := N_of_ascii c.

Definition is_digit (c : ascii) : bool := ((48 <=? code c) && (code c <=? 57))%N.
Definition is_lower (c : ascii) : bool := ((97 <=? code c) && (code c <=? 122))%N.
Definition is_upper (c : ascii) : bool := ((65 <=? code c) && (code c <=? 90))%N.
Definition is_underscore (c : ascii) : bool := (code c =? 95)%N.
Definition is_hyphen (c : ascii) : bool := (code c =? 45)%N.

(** [\w]: letters, digits and the underscore. *)
Definition is_word (c : ascii) : bool :=
  is_digit c || is_lower c || is_upper c || is_underscore c.

(** [\s] on the ASCII range: tab, line feed, vertical tab, form feed,
    carriage return and space. *)
Definition is_space (c : ascii) : bool :=
  ((9 <=? code c) && (code c <=? 13))%N || (code c =? 32)%N.

(** [.replace(/[^\w\s-]/g, '')] *)
Fixpoint remove_other (s : string) : string :=
  match s with
  | EmptyString => EmptyString
  | String c r =>
    if is_word c || is_space c || is_hyphen c then String c (remove_other r)
    else remove_other r
  end.

(** The class [[\s_-]]. *)
Definition is_sep (c : ascii) : bool := is_space c || is_underscore c || is_hyphen c.

(** [.replace(/[\s_-]+/g, '-')]: every maximal run of separators becomes
    one hyphen; [in_run] tells that the previous character was part of
    the run being replaced. *)
Fixpoint collapse_seps (in_run : bool) (s : string) : string :=
  match s with
  | EmptyString => EmptyString
  | String c r =>
    if is_sep c then
      if in_run then collapse_seps true r else String "-"%char (collapse_seps true r)
    else String c (collapse_seps false r)
  end.

(** [.replace(/^-+|-+$/g, '')]: the hyphens at the start and the hyphens at
    the end go. *)
Fixpoint drop_leading_hyphens (s : string) : string :=
  match s with
  | EmptyString => EmptyString
  | String c r => if is_hyphen c then drop_leading_hyphens r else s
  end.

Fixpoint drop_trailing_hyphens (s : string) : string :=
  match s with
  | EmptyString => EmptyString
  | String c r =>
    match drop_trailing_hyphens r with
    | EmptyString => if is_hyphen c then EmptyString else String c EmptyString
    | r' => String c r'
    end
  end.

Definition trim_hyphens (s : string) : string :=
  drop_trailing_hyphens (drop_leading_hyphens s).

(** Lines 144-149. *)
Definition generateSlug (title : string) : string :=
  trim_hyphens (collapse_seps false (remove_other (JS.toLowerCase title))).

(** How a slug looks. *)
Definition starts_with_hyphen (s : string) : bool :=
  match s with
  | String c _ => is_hyphen c
  | EmptyString => false
  end.

Fixpoint ends_with_hyphen (s : string) : bool :=
  match s with
  | EmptyString => false
  | String c EmptyString => is_hyphen c
  | String _ r => ends_with_hyphen r
  end.

Fixpoint has_double_hyphen (s : string) : bool :=
  match s with
  | EmptyString => false
  | String c r => (is_hyphen c && starts_with_hyphen r) || has_double_hyphen r
  end.

(** The characters of a slug: lower-case letters, digits and the hyphen. *)
Definition is_slug_char (c : ascii) : bool := is_lower c || is_digit c || is_hyphen c.

Definition is_alnum (c : ascii) : bool := is_digit c || is_lower c || is_upper c.

Definition is_ascii (c : ascii) : bool := (code c <? 128)%N.

(** What is left of a lowered title after the first replacement. *)
Definition is_kept_lower (c : ascii) : bool :=
  (is_word c || is_space c || is_hyphen c) && negb (is_upper c).

End Slug.

(** ** The query of [GET /api/posts] *)

Module Posts.

(** A query parameter in a condition: absent and empty are falsy.  The
    parameters are taken as plain strings. *)
Definition given (o : option string) : bool :=
  match o with
  | Some (String _ _) => true
  | _ => false
  end.

Definition text (o : option string) : string :=
  match o with
  | Some s => s
  | None => EmptyString
  end.

(** [featured === 'true'] *)
Definition is_true (o : option string) : bool :=
  match o with
  | Some s => String.eqb s "true"
  | None => false
  end.

(** Lines 176-195: the SQL text and the values bound to its
    placeholders. *)
Definition list_query (search category featured : option string)
  : string * list string :=
  let query := "SELECT * FROM posts WHERE published = 1" in
  let params := [] in
  let '(query, params) :=
    if given search then
      let searchTerm := "%" +:+ text search +:+ "%" in
      (query +:+ " AND (title LIKE ? OR content LIKE ? OR excerpt LIKE ?)",
       params ++ [searchTerm; searchTerm; searchTerm])
    else (query, params) in
  let '(query, params) :=
    if given category then
      (query +:+ " AND category = ?", params ++ [text category])
    else (query, params) in
  let query :=
    if is_true featured then query +:+ " AND featured = 1" else query in
  (query +:+ " ORDER BY created_at DESC", params).

Definition is_placeholder (c : ascii) : bool :=
  if ascii_dec c "?"%char then true else false.

Definition placeholders (query : string) : nat := Str.count_char is_placeholder query.

(** Whether a parameter is given, without what it says. *)
Definition presence (o : option string) : option string :=
  if given o then Some "x" else None.

End Posts.

(** ** The earlier upload route (disk storage) *)

(** Lines 415-421: the name under which the disk storage keeps an upload. *)
Definition legacy_filename (E : Env) (originalname : string) : string :=
  let uniqueSuffix := JS.num (Date_now E) +:+ "-" +:+ JS.num (uniqueSuffix E) in
  uniqueSuffix +:+ Path.extname originalname.

(** ** What the scans of [extname] and [basename] keep true *)

Module Scan.

(** The character of [path] at index [k] is a separator. *)
Definition slb (path : string) (k : nat) : bool :=
  Path.is_char Path.slash (JS.charAt path k).

(** [e] is one past the last character that is not a separator. *)
Definition LastEnd (path : string) (e : Z) : Prop :=
  0 < e <= Z.of_nat (String.length path) /\
  slb path (Z.to_nat (e - 1)) = false /\
  forall k : nat, e <= Z.of_nat k -> (k < String.length path)%nat -> slb path k = true.

(** No separator at the indices from [a] up to [b], [b] excluded. *)
Definition clear (path : string) (a b : Z) : Prop :=
  forall k : nat, a <= Z.of_nat k < b -> slb path k = false.

(** [extname], after the indices from [n] up have been visited. *)
Definition ext_inv (path : string) (n : nat) (st : Path.ext_state) : Prop :=
  (Path.ext_end st = -1 /\ Path.startDot st = -1 /\ Path.ext_matchedSlash st = true /\
   Path.preDotState st = 0 /\
   forall k : nat, (n <= k < String.length path)%nat -> slb path k = true)
  \/
  (Path.ext_matchedSlash st = false /\ LastEnd path (Path.ext_end st) /\
   Z.of_nat n <= Path.ext_end st /\ clear path (Z.of_nat n) (Path.ext_end st) /\
   ((Path.startDot st = -1 /\ Path.preDotState st = 0) \/
    (Z.of_nat n <= Path.startDot st < Path.ext_end st /\
     (Path.preDotState st = 0 \/ 1 <= Path.startDot st)))).

(** When the scan is over: a dot was found only inside the last stretch
    without separators, and a character before it was seen only if the dot
    is not at index 0. *)
Definition ext_post (path : string) (st : Path.ext_state) : Prop :=
  Path.startDot st = -1 \/ Path.ext_end st = -1 \/
  (LastEnd path (Path.ext_end st) /\ 0 <= Path.startDot st < Path.ext_end st /\
   clear path (Path.startDot st) (Path.ext_end st) /\
   (Path.preDotState st = 0 \/ 1 <= Path.startDot st)).

(** [basename] without a suffix. *)
Definition plain_inv (path : string) (n : nat) (st : Path.base_state) : Prop :=
  Path.b_start st = 0 /\
  ((Path.b_end st = -1 /\ Path.b_matchedSlash st = true) \/
   (Path.b_matchedSlash st = false /\ Z.of_nat n <= Path.b_end st /\
    clear path (Z.of_nat n) (Path.b_end st))).

Definition plain_post (path : string) (st : Path.base_state) : Prop :=
  Path.b_end st = -1 \/
  (0 <= Path.b_start st <= Path.b_end st /\
   clear path (Path.b_start st) (Path.b_end st)).

(** [basename] with a suffix as long as the stretch from [d] to [e]. *)
Definition suffix_inv (path : string) (d e : Z) (n : nat) (st : Path.base_state) : Prop :=
  Path.b_start st = 0 /\
  ((Path.firstNonSlashEnd st = -1 /\ Path.b_matchedSlash st = true /\
    Path.b_end st = -1 /\ Path.extIdx st = e - d - 1 /\
    forall k : nat, (n <= k < String.length path)%nat -> slb path k = true)
   \/
   (Path.b_matchedSlash st = false /\ Path.firstNonSlashEnd st = e /\
    Z.of_nat n <= e /\ clear path (Z.of_nat n) e /\
    ((Path.b_end st = -1 /\ 0 <= Path.extIdx st /\
      Path.extIdx st = e - d - 1 - (e - Z.of_nat n))
     \/ (Path.extIdx st = -1 /\ Z.of_nat n <= Path.b_end st <= e)))).

Definition suffix_post (path : string) (e : Z) (st : Path.base_state) : Prop :=
  0 <= Path.b_start st /\ Path.firstNonSlashEnd st = e /\
  clear path (Path.b_start st) e /\ Path.b_start st <= Path.b_end st <= e.

End Scan.

(** The outside calls of one run of [processImage], in the order the code
    makes them. *)
Definition run_calls (path : string) : list Event :=
  [EvMetadata; EvToFile path; EvStat path].

(** A second upload in the same millisecond with the same random draw,
    whose output differs from the first. *)
Module Demo2.

Definition other_bytes : Buffer := [Byte.x52; Byte.x49; Byte.x46; Byte.x46; Byte.x00].

Definition env_other : Env :=
  {| Date_now := 1700000000000;
     Math_random := 0.123456789;
     metadata_of := fun _ => inr {| Sharp.width := 640; Sharp.height := 480 |};
     toFile_of := fun _ _ _ => Written other_bytes;
     stat_fault := fun _ => None |}.


Definition anonymous_request : Request :=
  {| session_userId := None;
     image_part := Some {| originalname := "photo.jpg"; mimetype := "image/jpeg";
                           content := Demo.jpeg_bytes |} |}.

End Demo2.

(** The scans on a path without separators. *)
Module ScanFlat.

(** [basename] without a suffix. *)
Definition plain_inv (path : string) (n : nat) (st : Path.base_state) : Prop :=
  Path.b_start st = 0 /\
  ((n = String.length path /\ Path.b_end st = -1) \/
   Path.b_end st = Z.of_nat (String.length path)).

(** [basename] with the stretch from [d] to the end of the path as
    suffix. *)
Definition suffix_inv (path : string) (d : Z) (n : nat) (st : Path.base_state) : Prop :=
  Path.b_start st = 0 /\
  ((n = String.length path /\ Path.firstNonSlashEnd st = -1 /\
    Path.b_matchedSlash st = true /\ Path.b_end st = -1 /\
    Path.extIdx st = Z.of_nat n - d - 1)
   \/
   (Path.firstNonSlashEnd st = Z.of_nat (String.length path) /\
    Path.b_matchedSlash st = false /\
    ((d < Z.of_nat n /\ Path.b_end st = -1 /\ Path.extIdx st = Z.of_nat n - d - 1) \/
     (Z.of_nat n <= d /\ Path.b_end st = d /\ Path.extIdx st = -1)))).

End ScanFlat.

(** ** The steps of a run of [processImage] *)

Definition webpOptions : Sharp.WebpOptions :=
  {| Sharp.quality := targetQuality; Sharp.effort := 6 |}.

Definition outputPath (E : Env) (originalName : string) : string :=
  Path.join "uploads" (outputFilename E originalName).

Definition reported (E : Env) (originalName : string) (md : Sharp.Metadata)
    (size : Z) : ProcessedImage :=
  {| p_filename := outputFilename E originalName;
     p_originalName := originalName;
     p_size := size;
     p_width := if Sharp.width md >? maxWidth then maxWidth else Sharp.width md;
     p_height := if Sharp.height md >? maxHeight then maxHeight else Sharp.height md |}.

(** The resize the route asks for when a side is over its maximum. *)
Definition resizeRequest : Sharp.ResizeOptions :=
  {| Sharp.r_width := maxWidth; Sharp.r_height := maxHeight;
     Sharp.fit := Sharp.inside; Sharp.withoutEnlargement := true |}.

(** The four ways a run of [processImage] can go: the decode fails, the
    write fails, the measurement fails, or all three succeed. *)
Inductive Run (E : Env) (buf : Buffer) (name : string) (w : World)
  : Result ProcessedImage -> World -> Prop :=
| RunDecodeFails e :
    metadata_of E buf = inl e ->
    Run E buf name w (Throw processError) (record_event EvMetadata w)
| RunWriteFails md e left :
    metadata_of E buf = inr md ->
    toFile_of E buf (resizeOptions md) webpOptions = WriteFailed e left ->
    Run E buf name w (Throw processError)
      (let w1 := record_event (EvToFile (outputPath E name)) (record_event EvMetadata w) in
       match left with
       | Some part => write_file (outputPath E name) part w1
       | None => w1
       end)
| RunStatFails md bytes e :
    metadata_of E buf = inr md ->
    toFile_of E buf (resizeOptions md) webpOptions = Written bytes ->
    stat_fault E (outputPath E name) = Some e ->
    Run E buf name w (Throw processError)
      (record_event (EvStat (outputPath E name))
         (write_file (outputPath E name) bytes
            (record_event (EvToFile (outputPath E name)) (record_event EvMetadata w))))
| RunOk md bytes :
    metadata_of E buf = inr md ->
    toFile_of E buf (resizeOptions md) webpOptions = Written bytes ->
    stat_fault E (outputPath E name) = None ->
    Run E buf name w (Ok (reported E name md (Z.of_nat (length bytes))))
      (record_event (EvStat (outputPath E name))
         (write_file (outputPath E name) bytes
            (record_event (EvToFile (outputPath E name)) (record_event EvMetadata w)))).

(** * Properties *)

(** ** Running [processImage] step by step *)

Lemma processImage_decode_fails E buf name w e :
  metadata_of E buf = inl e ->
  processImage E buf name w = (Throw processError, record_event EvMetadata w).
Proof.
  intros H. unfold processImage, try_catch, bind, sharp_metadata.
  rewrite H. reflexivity.
Qed.

Lemma processImage_write_fails E buf name w md e left :
  metadata_of E buf = inr md ->
  toFile_of E buf (resizeOptions md) webpOptions = WriteFailed e left ->
  processImage E buf name w =
    (Throw processError,
     let w1 := record_event (EvToFile (outputPath E name)) (record_event EvMetadata w) in
     match left with
     | Some part => write_file (outputPath E name) part w1
     | None => w1
     end).
Proof.
  intros Hm Ht. unfold processImage, try_catch, bind, sharp_metadata, sharp_toFile.
  rewrite Hm. fold webpOptions. rewrite Ht. destruct left; reflexivity.
Qed.

Lemma processImage_stat_fails E buf name w md bytes e :
  metadata_of E buf = inr md ->
  toFile_of E buf (resizeOptions md) webpOptions = Written bytes ->
  stat_fault E (outputPath E name) = Some e ->
  processImage E buf name w =
    (Throw processError,
     record_event (EvStat (outputPath E name))
       (write_file (outputPath E name) bytes
          (record_event (EvToFile (outputPath E name)) (record_event EvMetadata w)))).
Proof.
  intros Hm Ht Hs.
  unfold processImage, try_catch, bind, sharp_metadata, sharp_toFile, fs_stat.
  rewrite Hm. fold webpOptions. rewrite Ht. fold (outputPath E name).
  rewrite Hs. reflexivity.
Qed.

Lemma processImage_succeeds E buf name w md bytes :
  metadata_of E buf = inr md ->
  toFile_of E buf (resizeOptions md) webpOptions = Written bytes ->
  stat_fault E (outputPath E name) = None ->
  processImage E buf name w =
    (Ok (reported E name md (Z.of_nat (length bytes))),
     record_event (EvStat (outputPath E name))
       (write_file (outputPath E name) bytes
          (record_event (EvToFile (outputPath E name)) (record_event EvMetadata w)))).
Proof.
  intros Hm Ht Hs.
  unfold processImage, try_catch, bind, sharp_metadata, sharp_toFile, fs_stat.
  rewrite Hm. fold webpOptions. rewrite Ht. fold (outputPath E name).
  rewrite Hs. cbn [write_file record_event files].
  rewrite lookup_insert_eq. reflexivity.
Qed.

Lemma processImage_run E buf name w :
  Run E buf name w (fst (processImage E buf name w)) (snd (processImage E buf name w)).
Proof.
  destruct (metadata_of E buf) as [e | md] eqn:Hm.
  - rewrite (processImage_decode_fails _ _ _ _ _ Hm). eapply RunDecodeFails; eauto.
  - destruct (toFile_of E buf (resizeOptions md) webpOptions) as [bytes | e left] eqn:Ht.
    + destruct (stat_fault E (outputPath E name)) as [e |] eqn:Hs.
      * rewrite (processImage_stat_fails _ _ _ _ _ _ _ Hm Ht Hs).
        eapply RunStatFails; eauto.
      * rewrite (processImage_succeeds _ _ _ _ _ _ Hm Ht Hs).
        eapply RunOk; eauto.
    + rewrite (processImage_write_fails _ _ _ _ _ _ _ Hm Ht).
      eapply RunWriteFails; eauto.
Qed.

Lemma processImage_inv E buf name w r w' :
  processImage E buf name w = (r, w') -> Run E buf name w r w'.
Proof.
  intros H. pose proof (processImage_run E buf name w) as R.
  rewrite H in R. exact R.
Qed.

Lemma clamp_is_min (d m : Z) : (if d >? m then m else d) = Z.min d m.
Proof. destruct (Z.gtb_spec d m); lia. Qed.

(** ** Reported metadata *)

(** C1: a successful ingestion reports width = min(sourceWidth, 1920) and
    height = min(sourceHeight, 1080), each clamped on its own, where the
    source dimensions are those the decoder returned for the buffer. *)
Theorem reported_dimensions_are_clamped E buf name w img w' :
  processImage E buf name w = (Ok img, w') ->
  exists md,
    metadata_of E buf = inr md /\
    p_width img = Z.min (Sharp.width md) 1920 /\
    p_height img = Z.min (Sharp.height md) 1080.
Proof.
  intros H. apply processImage_inv in H. inversion H; subst.
  exists md. split; [assumption |].
  cbn [reported p_width p_height]. rewrite !clamp_is_min. split; reflexivity.
Qed.

Lemma reported_dimensions_are_clamped_witness :
  exists md,
    metadata_of (Demo.env 4000 2000) Demo.jpeg_bytes = inr md /\
    p_width (reported (Demo.env 4000 2000) "photo.jpg"
               {| Sharp.width := 4000; Sharp.height := 2000 |} 8)
      = Z.min (Sharp.width md) 1920 /\
    p_height (reported (Demo.env 4000 2000) "photo.jpg"
                {| Sharp.width := 4000; Sharp.height := 2000 |} 8)
      = Z.min (Sharp.height md) 1080.
Proof.
  apply (reported_dimensions_are_clamped (Demo.env 4000 2000) Demo.jpeg_bytes
           "photo.jpg" Demo.empty_world _
           (snd (processImage (Demo.env 4000 2000) Demo.jpeg_bytes "photo.jpg"
                   Demo.empty_world))).
  vm_compute. reflexivity.
Defined.

(** The route on an accepted file: the reply is built from the run of
    [processImage]. *)
Lemma upload_route_success E req part w :
  image_part req = Some part ->
  succeeded (fst (upload_route E req w)) = true ->
  exists md bytes,
    metadata_of E (content part) = inr md /\
    toFile_of E (content part) (resizeOptions md) webpOptions = Written bytes /\
    upload_route E req w =
      (Json 200 (UploadBody
                   ("/uploads/" +:+ outputFilename E (originalname part))
                   (outputFilename E (originalname part))
                   (originalname part)
                   (Z.of_nat (length bytes))
                   (dimensions_string
                      (reported E (originalname part) md (Z.of_nat (length bytes))))
                   "Image uploaded and optimized successfully"),
       record_event (EvStat (outputPath E (originalname part)))
         (write_file (outputPath E (originalname part)) bytes
            (record_event (EvToFile (outputPath E (originalname part)))
               (record_event EvMetadata w)))).
Proof.
  intros Hp H. unfold upload_route in *.
  destruct (authenticated req); [| discriminate].
  rewrite Hp in *. unfold upload_single in *.
  destruct (fileFilter part) as [err | [|]]; try discriminate.
  destruct (fileSize <? Z.of_nat (length (content part))); [discriminate |].
  unfold upload_handler in *. cbn [buffer f_originalname] in *.
  pose proof (processImage_run E (content part) (originalname part) w) as R.
  destruct (processImage E (content part) (originalname part) w) as [[img | e] w1];
    cbn [fst snd] in *.
  - inversion R; subst. exists md, bytes. repeat split; assumption || reflexivity.
  - destruct (JS.or_string (exn_message e) "Failed to upload and process image");
      discriminate.
Qed.

(** C2, as the route behaves: for a 4000x2000 source a successful upload
    answers with the dimensions string "1920x1080", both sides clamped
    separately. *)
Theorem dimensions_4000x2000 E req part w :
  image_part req = Some part ->
  metadata_of E (content part) = inr {| Sharp.width := 4000; Sharp.height := 2000 |} ->
  succeeded (fst (upload_route E req w)) = true ->
  reply_dimensions (fst (upload_route E req w)) = Some "1920x1080".
Proof.
  intros Hp Hm H.
  destruct (upload_route_success E req part w Hp H) as (md & bytes & Hmd & _ & ->).
  rewrite Hm in Hmd. injection Hmd as <-. reflexivity.
Qed.

Lemma dimensions_4000x2000_witness :
  reply_dimensions
    (fst (upload_route (Demo.env 4000 2000) (Demo.image_request "photo.jpg")
            Demo.empty_world))
  = Some "1920x1080".
Proof.
  apply (dimensions_4000x2000 (Demo.env 4000 2000) (Demo.image_request "photo.jpg")
           {| originalname := "photo.jpg"; mimetype := "image/jpeg";
              content := Demo.jpeg_bytes |}
           Demo.empty_world).
  - reflexivity.
  - reflexivity.
  - vm_compute. reflexivity.
Defined.

(** C2 as stated fails: the upload of a 4000x2000 source succeeds and its
    dimensions string is not "1920x960". *)
Lemma dimensions_4000x2000_not_1920x960 :
  metadata_of (Demo.env 4000 2000) Demo.jpeg_bytes
    = inr {| Sharp.width := 4000; Sharp.height := 2000 |} /\
  succeeded
    (fst (upload_route (Demo.env 4000 2000) (Demo.image_request "photo.jpg")
            Demo.empty_world)) = true /\
  reply_dimensions
    (fst (upload_route (Demo.env 4000 2000) (Demo.image_request "photo.jpg")
            Demo.empty_world)) <> Some "1920x960".
Proof.
  split; [reflexivity |]. split.
  - vm_compute. reflexivity.
  - vm_compute. discriminate.
Qed.

(** ** Storage *)

(** C7: the size a successful ingestion reports is the byte length of the
    file found in storage under the stored filename after the run, and the
    measurement is the last outside call, made after the write. *)
Theorem reported_size_is_stored_size E buf name w img w' :
  processImage E buf name w = (Ok img, w') ->
  exists bytes,
    files w' !! Path.join "uploads" (p_filename img) = Some bytes /\
    p_size img = Z.of_nat (length bytes) /\
    log w' = log w ++ [EvMetadata;
                       EvToFile (Path.join "uploads" (p_filename img));
                       EvStat (Path.join "uploads" (p_filename img))].
Proof.
  intros H. apply processImage_inv in H. inversion H; subst.
  exists bytes. cbn [reported p_filename p_size]. fold (outputPath E name).
  cbn [record_event write_file files log].
  split; [apply lookup_insert_eq |]. split; [reflexivity |].
  rewrite <- !app_assoc. reflexivity.
Qed.

Lemma reported_size_is_stored_size_witness :
  exists bytes,
    files (snd (processImage (Demo.env 800 600) Demo.jpeg_bytes "photo.jpg"
                  Demo.empty_world))
      !! Path.join "uploads"
           (p_filename (reported (Demo.env 800 600) "photo.jpg"
                          {| Sharp.width := 800; Sharp.height := 600 |} 8))
      = Some bytes /\
    p_size (reported (Demo.env 800 600) "photo.jpg"
              {| Sharp.width := 800; Sharp.height := 600 |} 8)
      = Z.of_nat (length bytes) /\
    log (snd (processImage (Demo.env 800 600) Demo.jpeg_bytes "photo.jpg"
                Demo.empty_world))
      = log Demo.empty_world
          ++ [EvMetadata;
              EvToFile (Path.join "uploads"
                          (p_filename (reported (Demo.env 800 600) "photo.jpg"
                             {| Sharp.width := 800; Sharp.height := 600 |} 8)));
              EvStat (Path.join "uploads"
                        (p_filename (reported (Demo.env 800 600) "photo.jpg"
                           {| Sharp.width := 800; Sharp.height := 600 |} 8)))].
Proof.
  apply (reported_size_is_stored_size (Demo.env 800 600) Demo.jpeg_bytes "photo.jpg"
           Demo.empty_world).
  vm_compute. reflexivity.
Defined.




(** ** Rejections before the handler *)

Lemma upload_single_non_image part :
  JS.startsWith (mimetype part) "image/" = false ->
  upload_single (Some part) = inl (Error "Only image files are allowed!").
Proof. intros H. unfold upload_single, fileFilter. rewrite H. reflexivity. Qed.

Lemma upload_single_too_large part :
  JS.startsWith (mimetype part) "image/" = true ->
  fileSize < Z.of_nat (length (content part)) ->
  upload_single (Some part) = inl (MulterError "LIMIT_FILE_SIZE" "File too large").
Proof.
  intros H L. unfold upload_single, fileFilter. rewrite H.
  apply Z.ltb_lt in L. rewrite L. reflexivity.
Qed.

Lemma big_content_length : Z.of_nat (length Demo.big_content) = 60 * 1024 * 1024.
Proof.
  unfold Demo.big_content. rewrite repeat_length. apply Z2Nat.id. lia.
Qed.

(** C8: an upload whose declared media type does not start with "image/"
    is rejected with the error "Only image files are allowed!"; the handler
    does not run, so storage and the log of outside calls are unchanged:
    no decode, no write. *)
Theorem non_image_rejected E req part w :
  authenticated req = true ->
  image_part req = Some part ->
  JS.startsWith (mimetype part) "image/" = false ->
  upload_route E req w = (NextError (Error "Only image files are allowed!"), w).
Proof.
  intros Ha Hp Hm. unfold upload_route. rewrite Ha, Hp.
  rewrite (upload_single_non_image part Hm). reflexivity.
Qed.

Lemma non_image_rejected_witness :
  upload_route (Demo.env 800 600) Demo.text_request Demo.empty_world
  = (NextError (Error "Only image files are allowed!"), Demo.empty_world).
Proof.
  apply (non_image_rejected (Demo.env 800 600) Demo.text_request
           {| originalname := "notes.txt"; mimetype := "text/plain";
              content := Demo.jpeg_bytes |} Demo.empty_world);
    reflexivity.
Defined.

(** C9: an upload that passed the media type check (declared as an image)
    and whose byte length exceeds 50 MiB is rejected with multer's
    LIMIT_FILE_SIZE error; the handler does not run, so there is no decode
    and no write. *)
Theorem oversized_image_rejected E req part w :
  authenticated req = true ->
  image_part req = Some part ->
  JS.startsWith (mimetype part) "image/" = true ->
  fileSize < Z.of_nat (length (content part)) ->
  upload_route E req w
  = (NextError (MulterError "LIMIT_FILE_SIZE" "File too large"), w).
Proof.
  intros Ha Hp Hm Hl. unfold upload_route. rewrite Ha, Hp.
  rewrite (upload_single_too_large part Hm Hl). reflexivity.
Qed.

Lemma oversized_image_rejected_witness :
  upload_route (Demo.env 800 600) (Demo.big_request "image/png") Demo.empty_world
  = (NextError (MulterError "LIMIT_FILE_SIZE" "File too large"), Demo.empty_world).
Proof.
  apply (oversized_image_rejected (Demo.env 800 600) (Demo.big_request "image/png")
           {| originalname := "big.png"; mimetype := "image/png";
              content := Demo.big_content |} Demo.empty_world).
  - reflexivity.
  - reflexivity.
  - reflexivity.
  - cbn [content]. rewrite big_content_length. reflexivity.
Defined.

(** The media type is checked first: a 60 MiB upload declared as
    text/plain is answered with the media type error, whatever its size. *)
Lemma oversized_text_not_size_error :
  fileSize < Z.of_nat (length Demo.big_content) /\
  upload_route (Demo.env 800 600) (Demo.big_request "text/plain") Demo.empty_world
  = (NextError (Error "Only image files are allowed!"), Demo.empty_world) /\
  fst (upload_route (Demo.env 800 600) (Demo.big_request "text/plain") Demo.empty_world)
  <> NextError (MulterError "LIMIT_FILE_SIZE" "File too large").
Proof.
  assert (R : upload_route (Demo.env 800 600) (Demo.big_request "text/plain")
                Demo.empty_world
              = (NextError (Error "Only image files are allowed!"), Demo.empty_world)).
  { unfold upload_route. cbn [Demo.big_request authenticated session_userId image_part].
    rewrite upload_single_non_image; reflexivity. }
  split; [rewrite big_content_length; reflexivity |].
  split; [exact R |]. rewrite R. discriminate.
Qed.

(** C10: with no file in the request the route answers 400 with the body
    [{ error: 'No file uploaded' }]; [processImage] is not called, so
    storage and the log of outside calls are unchanged. *)
Theorem no_file_uploaded E req w :
  authenticated req = true ->
  image_part req = None ->
  upload_route E req w = (Json 400 (ErrorBody "No file uploaded"), w).
Proof.
  intros Ha Hp. unfold upload_route. rewrite Ha, Hp. reflexivity.
Qed.

Lemma no_file_uploaded_witness :
  upload_route (Demo.env 800 600) Demo.empty_request Demo.empty_world
  = (Json 400 (ErrorBody "No file uploaded"), Demo.empty_world).
Proof.
  apply (no_file_uploaded (Demo.env 800 600) Demo.empty_request Demo.empty_world);
    reflexivity.
Defined.

(** ** The resize policy *)

Lemma Math_round_comp (x y : Q) : (x == y)%Q -> JS.Math_round x = JS.Math_round y.
Proof. intros H. unfold JS.Math_round. apply Qfloor_comp. rewrite H. reflexivity. Qed.

Lemma Math_round_frac (n x : Z) (d : positive) :
  JS.Math_round ((n # d) * inject_Z x) = (2 * (n * x) + Z.pos d) / (2 * Z.pos d).
Proof.
  unfold JS.Math_round, Qfloor, Qplus, Qmult, inject_Z. cbn [Qnum Qden].
  rewrite Pos.mul_1_r, Pos2Z.inj_mul. f_equal; lia.
Qed.

Lemma round_div_bounds (n d : Z) :
  0 < d ->
  2 * d * ((2 * n + d) / (2 * d)) <= 2 * n + d < 2 * d * ((2 * n + d) / (2 * d) + 1).
Proof.
  intros Hd. pose proof (Z.mul_div_le (2 * n + d) (2 * d) ltac:(lia)).
  pose proof (Z.mul_succ_div_gt (2 * n + d) (2 * d) ltac:(lia)). lia.
Qed.

Lemma ratio_frac (a : Z) (p : positive) : (inject_Z a / inject_Z (Z.pos p) == a # p)%Q.
Proof. symmetry. apply Qmake_Qdiv. Qed.

Lemma resizeOptions_over sw sh :
  sw > 1920 \/ sh > 1080 ->
  resizeOptions {| Sharp.width := sw; Sharp.height := sh |} = Some resizeRequest.
Proof.
  intros H. unfold resizeOptions, maxWidth, maxHeight. cbn [Sharp.width Sharp.height].
  destruct (Z.gtb_spec sw 1920); destruct (Z.gtb_spec sh 1080); try reflexivity. lia.
Qed.

Lemma resizeOptions_within sw sh :
  sw <= 1920 -> sh <= 1080 ->
  resizeOptions {| Sharp.width := sw; Sharp.height := sh |} = None.
Proof.
  intros H1 H2. unfold resizeOptions, maxWidth, maxHeight. cbn [Sharp.width Sharp.height].
  destruct (Z.gtb_spec sw 1920); destruct (Z.gtb_spec sh 1080); try reflexivity; lia.
Qed.

(** The factor of the spec under the route's request, when a side is over. *)
Lemma scaleFactor_over (p q : positive) :
  Z.pos p > 1920 \/ Z.pos q > 1080 ->
  (Sharp.scaleFactor resizeRequest (Z.pos p) (Z.pos q)
   == Qmin (inject_Z 1920 / inject_Z (Z.pos p)) (inject_Z 1080 / inject_Z (Z.pos q)))%Q.
Proof.
  intros H. unfold Sharp.scaleFactor. cbn [resizeRequest Sharp.withoutEnlargement
    Sharp.r_width Sharp.r_height]. unfold maxWidth, maxHeight.
  apply Q.min_r. rewrite !ratio_frac.
  destruct H as [H | H].
  - apply Qle_trans with (1920 # p); [apply Q.le_min_l |]. unfold Qle. cbn [Qnum Qden]. lia.
  - apply Qle_trans with (1080 # q); [apply Q.le_min_r |]. unfold Qle. cbn [Qnum Qden]. lia.
Qed.

Lemma factor_width_bound (p q : positive) :
  1920 * Z.pos q <= 1080 * Z.pos p ->
  (Qmin (inject_Z 1920 / inject_Z (Z.pos p)) (inject_Z 1080 / inject_Z (Z.pos q))
   == 1920 # p)%Q.
Proof.
  intros H. rewrite !ratio_frac. apply Q.min_l. unfold Qle. cbn [Qnum Qden]. lia.
Qed.

Lemma factor_height_bound (p q : positive) :
  1080 * Z.pos p <= 1920 * Z.pos q ->
  (Qmin (inject_Z 1920 / inject_Z (Z.pos p)) (inject_Z 1080 / inject_Z (Z.pos q))
   == 1080 # q)%Q.
Proof.
  intros H. rewrite !ratio_frac. apply Q.min_r. unfold Qle. cbn [Qnum Qden]. lia.
Qed.

(** Rounding [m * x / d] when [m / d] is the factor. *)
Lemma scaleDim_frac (s : Q) (m x : Z) (d : positive) :
  (s == m # d)%Q ->
  Sharp.scaleDim s x = Z.max 1 ((2 * (m * x) + Z.pos d) / (2 * Z.pos d)).
Proof.
  intros H. unfold Sharp.scaleDim. f_equal.
  rewrite <- Math_round_frac. apply Math_round_comp. rewrite H. reflexivity.
Qed.

(** The side that sets the factor lands on its maximum. *)
Lemma scaled_exact (m d : Z) : 0 < d -> 1 <= m -> Z.max 1 ((2 * (m * d) + d) / (2 * d)) = m.
Proof.
  intros Hd Hm. pose proof (round_div_bounds (m * d) d Hd) as [L U].
  set (r := (2 * (m * d) + d) / (2 * d)) in *.
  assert (r = m) by nia. lia.
Qed.

(** The other side: within its maximum, at least 1, and less than a pixel
    from the exactly proportional size [m * x / d]. *)
Lemma scaled_other (m M x d : Z) :
  0 < d -> 0 < x -> 1 <= m -> 1 <= M -> m * x <= M * d ->
  let r := Z.max 1 ((2 * (m * x) + d) / (2 * d)) in
  1 <= r <= M /\ Z.abs (r * d - m * x) < d.
Proof.
  intros Hd Hx Hm HM Hle. pose proof (round_div_bounds (m * x) d Hd) as [L U].
  set (q := (2 * (m * x) + d) / (2 * d)) in *. cbv zeta.
  destruct (Z.max_spec 1 q) as [[Hq ->] | [Hq ->]].
  - split; [nia |]. apply Z.abs_lt. nia.
  - split; [lia |]. apply Z.abs_lt. nia.
Qed.

Lemma resizePolicy_over sw sh :
  sw > 1920 \/ sh > 1080 ->
  resizePolicy sw sh =
    {| t_width := Sharp.scaleDim (Sharp.scaleFactor resizeRequest sw sh) sw;
       t_height := Sharp.scaleDim (Sharp.scaleFactor resizeRequest sw sh) sh;
       wasResized := true |}.
Proof.
  intros H. unfold resizePolicy. rewrite (resizeOptions_over sw sh H). reflexivity.
Qed.

(** The arithmetic of a resize under the route's request. *)
Lemma resize_over_dims sw sh :
  0 < sw -> 0 < sh -> sw > 1920 \/ sh > 1080 ->
  let s := Sharp.scaleFactor resizeRequest sw sh in
  1 <= Sharp.scaleDim s sw <= 1920 /\
  1 <= Sharp.scaleDim s sh <= 1080 /\
  ((Sharp.scaleDim s sw = 1920 /\ Z.abs (Sharp.scaleDim s sh * sw - 1920 * sh) < sw) \/
   (Sharp.scaleDim s sh = 1080 /\ Z.abs (Sharp.scaleDim s sw * sh - 1080 * sw) < sh)).
Proof.
  intros Hw Hh Hover. cbv zeta.
  destruct sw as [| p | p]; try lia. destruct sh as [| q | q]; try lia.
  pose proof (scaleFactor_over p q Hover) as Hs.
  destruct (Z_le_gt_dec (1920 * Z.pos q) (1080 * Z.pos p)) as [Hb | Hb].
  - pose proof (factor_width_bound p q Hb) as Hf. rewrite Hf in Hs.
    rewrite !(scaleDim_frac _ 1920 _ p Hs).
    rewrite (scaled_exact 1920 (Z.pos p)) by lia.
    pose proof (scaled_other 1920 1080 (Z.pos q) (Z.pos p)
                  ltac:(lia) ltac:(lia) ltac:(lia) ltac:(lia) Hb) as [B A].
    split; [lia |]. split; [exact B |]. left. split; [reflexivity | exact A].
  - assert (Hb' : 1080 * Z.pos p <= 1920 * Z.pos q) by lia.
    pose proof (factor_height_bound p q Hb') as Hf. rewrite Hf in Hs.
    rewrite !(scaleDim_frac _ 1080 _ q Hs).
    rewrite (scaled_exact 1080 (Z.pos q)) by lia.
    pose proof (scaled_other 1080 1920 (Z.pos p) (Z.pos q)
                  ltac:(lia) ltac:(lia) ltac:(lia) ltac:(lia) Hb') as [B A].
    split; [exact B |]. split; [lia |]. right. split; [reflexivity | exact A].
Qed.

Lemma resize_within_maxima sw sh :
  0 < sw -> 0 < sh -> sw > 1920 \/ sh > 1080 ->
  t_width (resizePolicy sw sh) <= 1920 /\ t_height (resizePolicy sw sh) <= 1080.
Proof.
  intros Hw Hh Hover. rewrite (resizePolicy_over sw sh Hover).
  cbn [t_width t_height].
  pose proof (resize_over_dims sw sh Hw Hh Hover) as (Bw & Bh & _). lia.
Qed.

(** C4: when a side of the source is over its maximum the policy marks the
    target as resized; both sides are the source sides times the one factor
    min(1920/sourceWidth, 1080/sourceHeight), rounded to the nearest integer
    and at least 1; the target is within 1920x1080; and the side that sets
    the factor is exactly at its maximum while the other is less than one
    pixel from the size that keeps the source ratio. *)
Theorem oversized_scaled_uniformly sw sh :
  0 < sw -> 0 < sh -> sw > 1920 \/ sh > 1080 ->
  let s := Qmin (inject_Z 1920 / inject_Z sw) (inject_Z 1080 / inject_Z sh) in
  let t := resizePolicy sw sh in
  wasResized t = true /\
  t_width t = Z.max 1 (JS.Math_round (s * inject_Z sw)) /\
  t_height t = Z.max 1 (JS.Math_round (s * inject_Z sh)) /\
  1 <= t_width t <= 1920 /\
  1 <= t_height t <= 1080 /\
  ((t_width t = 1920 /\ Z.abs (t_height t * sw - 1920 * sh) < sw) \/
   (t_height t = 1080 /\ Z.abs (t_width t * sh - 1080 * sw) < sh)).
Proof.
  intros Hw Hh Hover. cbv zeta.
  pose proof (resize_over_dims sw sh Hw Hh Hover) as D. cbv zeta in D.
  rewrite (resizePolicy_over sw sh Hover). cbn [wasResized t_width t_height].
  split; [reflexivity |].
  assert (Hs : (Sharp.scaleFactor resizeRequest sw sh
                == Qmin (inject_Z 1920 / inject_Z sw) (inject_Z 1080 / inject_Z sh))%Q).
  { destruct sw as [| p | p]; try lia. destruct sh as [| q | q]; try lia.
    apply scaleFactor_over. exact Hover. }
  split; [unfold Sharp.scaleDim; f_equal; apply Math_round_comp; rewrite Hs; reflexivity |].
  split; [unfold Sharp.scaleDim; f_equal; apply Math_round_comp; rewrite Hs; reflexivity |].
  exact D.
Qed.

Lemma oversized_scaled_uniformly_witness :
  let s := Qmin (inject_Z 1920 / inject_Z 4000) (inject_Z 1080 / inject_Z 2000) in
  let t := resizePolicy 4000 2000 in
  wasResized t = true /\
  t_width t = Z.max 1 (JS.Math_round (s * inject_Z 4000)) /\
  t_height t = Z.max 1 (JS.Math_round (s * inject_Z 2000)) /\
  1 <= t_width t <= 1920 /\
  1 <= t_height t <= 1080 /\
  ((t_width t = 1920 /\ Z.abs (t_height t * 4000 - 1920 * 2000) < 4000) \/
   (t_height t = 1080 /\ Z.abs (t_width t * 2000 - 1080 * 4000) < 2000)).
Proof.
  apply (oversized_scaled_uniformly 4000 2000); lia.
Defined.

(** C3: a source within 1920x1080 is not resized: the route asks for no
    resize, the target is the source with [wasResized = false], and applying
    the policy to that target gives the same target again. *)
Theorem within_bounds_unchanged sw sh :
  sw <= 1920 -> sh <= 1080 ->
  resizeOptions {| Sharp.width := sw; Sharp.height := sh |} = None /\
  resizePolicy sw sh = {| t_width := sw; t_height := sh; wasResized := false |} /\
  resizePolicy (t_width (resizePolicy sw sh)) (t_height (resizePolicy sw sh))
    = resizePolicy sw sh.
Proof.
  intros Hw Hh. pose proof (resizeOptions_within sw sh Hw Hh) as Hn.
  assert (Hp : resizePolicy sw sh
               = {| t_width := sw; t_height := sh; wasResized := false |}).
  { unfold resizePolicy. rewrite Hn. reflexivity. }
  split; [exact Hn |]. split; [exact Hp |].
  rewrite Hp. cbn [t_width t_height]. exact Hp.
Qed.

Lemma within_bounds_unchanged_witness :
  resizeOptions {| Sharp.width := 800; Sharp.height := 600 |} = None /\
  resizePolicy 800 600 = {| t_width := 800; t_height := 600; wasResized := false |} /\
  resizePolicy (t_width (resizePolicy 800 600)) (t_height (resizePolicy 800 600))
    = resizePolicy 800 600.
Proof.
  apply (within_bounds_unchanged 800 600); lia.
Defined.

(** The policy applied to its own result changes nothing, for every
    source. *)
Lemma resizePolicy_idempotent sw sh :
  0 < sw -> 0 < sh ->
  resizePolicy (t_width (resizePolicy sw sh)) (t_height (resizePolicy sw sh))
  = {| t_width := t_width (resizePolicy sw sh);
       t_height := t_height (resizePolicy sw sh);
       wasResized := false |}.
Proof.
  intros Hw Hh.
  assert (B : t_width (resizePolicy sw sh) <= 1920 /\ t_height (resizePolicy sw sh) <= 1080).
  { destruct (Z_le_gt_dec sw 1920) as [Lw | Gw]; [destruct (Z_le_gt_dec sh 1080) as [Lh | Gh] |].
    - unfold resizePolicy. rewrite (resizeOptions_within sw sh Lw Lh).
      cbn [t_width t_height]. lia.
    - pose proof (resize_within_maxima sw sh Hw Hh (or_intror Gh)). lia.
    - pose proof (resize_within_maxima sw sh Hw Hh (or_introl Gw)). lia. }
  destruct B as [Bw Bh]. unfold resizePolicy at 1.
  rewrite (resizeOptions_within _ _ Bw Bh). reflexivity.
Qed.

(** ** The stored filename *)

(** The double arithmetic of the random part. *)

Lemma round_half_even_le (m : Q) (K : Z) :
  (m <= inject_Z K)%Q -> Double.round_half_even m <= K.
Proof.
  intros H. unfold Double.round_half_even.
  pose proof (Qfloor_resp_le _ _ H) as F. rewrite Qfloor_Z in F.
  destruct (Z.eq_dec (Qfloor m) K) as [E | E].
  - assert (L : (m - inject_Z (Qfloor m) < 1 # 2)%Q).
    { rewrite E. apply Qle_lt_trans with 0%Q; [| reflexivity].
      apply (Qplus_le_l _ _ (inject_Z K)). ring_simplify. exact H. }
    destruct (m - inject_Z (Qfloor m) ?= 1 # 2)%Q eqn:C; [| lia |].
    + apply Qeq_alt in C. rewrite C in L. discriminate.
    + apply Qgt_alt in C. exfalso. apply (Qlt_irrefl (1 # 2)).
      eapply Qlt_trans; eassumption.
  - destruct (m - inject_Z (Qfloor m) ?= 1 # 2)%Q; [destruct (Z.even _) | |]; lia.
Qed.

Lemma round_half_even_nonneg (m : Q) : (0 <= m)%Q -> 0 <= Double.round_half_even m.
Proof.
  intros H. unfold Double.round_half_even.
  pose proof (Qfloor_resp_le _ _ H) as F. change (Qfloor 0) with 0 in F.
  destruct (m - inject_Z (Qfloor m) ?= 1 # 2)%Q; [destruct (Z.even _) | |]; lia.
Qed.

Lemma quantum_nonpos (x : Q) :
  (0 < x)%Q -> (x < inject_Z (2 ^ 53))%Q -> Double.quantum x <= 0.
Proof.
  intros P U. unfold Double.quantum, Double.binade.
  destruct (Qle_bool 1 x) eqn:B.
  - apply Qle_bool_iff in B.
    pose proof (Qfloor_resp_le _ _ B) as F1. change (Qfloor 1) with 1 in F1.
    assert (F2 : Qfloor x < 2 ^ 53).
    { pose proof (Qfloor_le x) as L.
      assert (X : (inject_Z (Qfloor x) < inject_Z (2 ^ 53))%Q)
        by (eapply Qle_lt_trans; eassumption).
      rewrite <- Zlt_Qlt in X. exact X. }
    apply Z.log2_lt_pow2 in F2; lia.
  - pose proof (Z.log2_up_nonneg (Qceiling (/ x))). lia.
Qed.

Lemma pow2_pos (k : Z) : 0 <= k -> 0 < 2 ^ k.
Proof. intros H. apply Z.pow_pos_nonneg; lia. Qed.

Lemma nearest_pos_bounds (x : Q) (K : Z) :
  (0 < x)%Q -> (x <= inject_Z K)%Q -> K < 2 ^ 53 ->
  (0 <= Double.nearest_pos x <= inject_Z K)%Q.
Proof.
  intros P U HK.
  assert (Q0 : Double.quantum x <= 0).
  { apply quantum_nonpos; [exact P |]. eapply Qle_lt_trans; [exact U |].
    rewrite <- Zlt_Qlt. exact HK. }
  unfold Double.nearest_pos. destruct (Z.leb_spec 0 (Double.quantum x)) as [G | G].
  - assert (Double.quantum x = 0) as -> by lia. change (2 ^ 0) with 1.
    assert (X : (x / inject_Z 1 == x)%Q) by (field).
    assert (Hle : Double.round_half_even (x / inject_Z 1) <= K).
    { apply round_half_even_le. rewrite X. exact U. }
    assert (Hge : 0 <= Double.round_half_even (x / inject_Z 1)).
    { apply round_half_even_nonneg. rewrite X. apply Qlt_le_weak. exact P. }
    rewrite Z.mul_1_r. split.
    + change 0%Q with (inject_Z 0). rewrite <- Zle_Qle. exact Hge.
    + rewrite <- Zle_Qle. exact Hle.
  - set (p := 2 ^ (- Double.quantum x)).
    assert (Pp : 0 < p) by (apply pow2_pos; lia).
    assert (Pq : (0 < inject_Z p)%Q) by (change 0%Q with (inject_Z 0); rewrite <- Zlt_Qlt; exact Pp).
    assert (Hle : Double.round_half_even (x * inject_Z p) <= K * p).
    { apply round_half_even_le. rewrite inject_Z_mult.
      apply Qmult_le_compat_r; [exact U | apply Qlt_le_weak; exact Pq]. }
    assert (Hge : 0 <= Double.round_half_even (x * inject_Z p)).
    { apply round_half_even_nonneg. apply Qmult_le_0_compat; apply Qlt_le_weak; assumption. }
    split.
    + apply Qle_shift_div_l; [exact Pq |]. rewrite Qmult_0_l.
      change 0%Q with (inject_Z 0). rewrite <- Zle_Qle. exact Hge.
    + apply Qle_shift_div_r; [exact Pq |]. rewrite <- inject_Z_mult.
      rewrite <- Zle_Qle. exact Hle.
Qed.

Lemma nearest_bounds (x : Q) (K : Z) :
  (0 <= x)%Q -> (x <= inject_Z K)%Q -> 0 <= K < 2 ^ 53 ->
  (0 <= Double.nearest x <= inject_Z K)%Q.
Proof.
  intros P U HK. unfold Double.nearest.
  destruct (x ?= 0)%Q eqn:C.
  - split; [apply Qle_refl |]. change 0%Q with (inject_Z 0). rewrite <- Zle_Qle. lia.
  - apply Qlt_alt in C. exfalso. apply (Qlt_not_le _ _ C). exact P.
  - apply Qgt_alt in C. apply nearest_pos_bounds; [exact C | exact U | lia].
Qed.

(** X17: for a draw in [0, 1) the random part of the name is an integer
    between 0 and 10^9, both included. *)
Lemma uniqueSuffix_range E :
  (0 <= Math_random E)%Q -> (Math_random E < 1)%Q ->
  0 <= uniqueSuffix E <= 1000000000.
Proof.
  intros L U. unfold uniqueSuffix, JS.Math_round, Double.mul.
  destruct (nearest_bounds (Math_random E) 1 L (Qlt_le_weak _ _ U) ltac:(lia))
    as [D0 D1].
  set (d := Double.nearest (Math_random E)) in *.
  assert (P0 : (0 <= d * 1000000000)%Q).
  { apply Qmult_le_0_compat; [exact D0 | discriminate]. }
  assert (P1 : (d * 1000000000 <= inject_Z 1000000000)%Q).
  { apply Qle_trans with (inject_Z 1 * 1000000000)%Q; [| discriminate].
    apply Qmult_le_compat_r; [exact D1 | discriminate]. }
  destruct (nearest_bounds (d * 1000000000) 1000000000 P0 P1 ltac:(lia)) as [N0 N1].
  set (x := Double.nearest (d * 1000000000)) in *.
  split.
  - rewrite <- (Qfloor_Z 0). apply Qfloor_resp_le.
    apply Qle_trans with (0 + (1 # 2))%Q; [discriminate |].
    apply Qplus_le_compat; [exact N0 | apply Qle_refl].
  - assert (X : (x + (1 # 2) <= inject_Z 1000000000 + (1 # 2))%Q)
      by (apply Qplus_le_compat; [exact N1 | apply Qle_refl]).
    apply Qfloor_resp_le in X. etransitivity; [exact X |]. vm_compute. discriminate.
Qed.

(** C6 at [IMG_0001.JPG]: the extension is compared after lowering its
    case, the comparison is case sensitive, so the upper-case extension
    stays in the base name; the same name with a lower-case extension loses
    it. *)
Theorem uppercase_extension_kept E :
  outputFilename E "IMG_0001.JPG"
    = JS.num (Date_now E) +:+ "-" +:+ JS.num (uniqueSuffix E) +:+ "-IMG_0001.JPG.webp" /\
  outputFilename E "IMG_0001.jpg"
    = JS.num (Date_now E) +:+ "-" +:+ JS.num (uniqueSuffix E) +:+ "-IMG_0001.webp" /\
  outputFilename (Demo.env 800 600) "IMG_0001.JPG"
    = "1700000000000-123456789-IMG_0001.JPG.webp".
Proof.
  assert (U : baseName "IMG_0001.JPG" = "IMG_0001.JPG") by (vm_compute; reflexivity).
  assert (L : baseName "IMG_0001.jpg" = "IMG_0001") by (vm_compute; reflexivity).
  unfold outputFilename. rewrite U, L.
  split; [reflexivity |]. split; [reflexivity |]. vm_compute. reflexivity.
Qed.

(** ** Strings by index *)

Lemma get_all_chars P s k c :
  Str.all_chars P s = true -> String.get k s = Some c -> P c = true.
Proof.
  revert k. induction s as [| a r IH]; intros k H G; [destruct k; discriminate |].
  cbn [Str.all_chars] in H. apply andb_true_iff in H as [Ha Hr].
  destruct k as [| k]; cbn in G; [congruence | eauto].
Qed.

Lemma all_chars_get P s :
  (forall k c, String.get k s = Some c -> P c = true) -> Str.all_chars P s = true.
Proof.
  induction s as [| a r IH]; intros H; [reflexivity |].
  cbn [Str.all_chars]. rewrite (H 0%nat a eq_refl), IH; [reflexivity |].
  intros k c Hk. apply (H (S k)). exact Hk.
Qed.

Lemma all_chars_app P a b :
  Str.all_chars P (a +:+ b) = Str.all_chars P a && Str.all_chars P b.
Proof.
  induction a as [| c r IH]; [reflexivity |].
  simpl. rewrite IH, andb_assoc. reflexivity.
Qed.

Lemma length_substring s a m :
  (a + m <= String.length s)%nat -> String.length (String.substring a m s) = m.
Proof.
  revert a m. induction s as [| c r IH]; intros a m H.
  - cbn in H. assert (a = O) by lia. assert (m = O) by lia. subst. reflexivity.
  - destruct a as [| a]; destruct m as [| m]; cbn in *; try reflexivity.
    + rewrite IH by lia. reflexivity.
    + apply (IH a 0%nat). lia.
    + apply IH. lia.
Qed.

Lemma length_toLowerCase s : String.length (JS.toLowerCase s) = String.length s.
Proof. induction s as [| c r IH]; cbn; [reflexivity | rewrite IH; reflexivity]. Qed.

(** ** The scans of [extname] and [basename] *)

Section ScanFacts.
Variable path : string.

Local Abbreviation len := (String.length path).
Local Abbreviation slb := (Scan.slb path).
Local Abbreviation LastEnd := (Scan.LastEnd path).
Local Abbreviation clear := (Scan.clear path).

Lemma LastEnd_unique i e :
  LastEnd e -> slb i = false -> (i < len)%nat ->
  (forall k : nat, Z.of_nat i + 1 <= Z.of_nat k -> (k < len)%nat -> slb k = true) ->
  e = Z.of_nat i + 1.
Proof.
  intros (R & N & A) Hi Li Ai.
  destruct (Z.lt_trichotomy e (Z.of_nat i + 1)) as [L | [E | G]]; [| exact E |].
  - rewrite (A i) in Hi by lia. discriminate.
  - rewrite (Ai (Z.to_nat (e - 1))) in N by lia. discriminate.
Qed.

Lemma slice_clear a b :
  0 <= a -> clear a b -> no_slash (JS.slice path a b) = true.
Proof.
  intros Ha C. unfold no_slash, JS.slice. apply all_chars_get. intros k c G.
  destruct (Nat.lt_ge_cases k (Z.to_nat (b - a))) as [L | L].
  - rewrite String.substring_correct1 in G by exact L.
    specialize (C (k + Z.to_nat a)%nat ltac:(lia)).
    unfold Scan.slb, JS.charAt in C. rewrite G in C. unfold not_slash.
    rewrite C. reflexivity.
  - rewrite String.substring_correct2 in G by exact L. discriminate.
Qed.

Lemma extname_loop_post n st :
  (n <= len)%nat -> Scan.ext_inv path n st ->
  Scan.ext_post path (Path.extname_loop path n st).
Proof.
  revert st. induction n as [| i IH]; intros st Hn I.
  - cbn [Path.extname_loop]. destruct I as [(E & D & _) | (M & LE & B & C & D)].
    + left. exact D.
    + destruct D as [(D & _) | (D & P)]; [left; exact D |]. right. right.
      split; [exact LE |]. split; [lia |]. split; [| exact P].
      intros k Hk. apply C. lia.
  - cbn [Path.extname_loop]. fold (Scan.slb path i).
    destruct (slb i) eqn:Si.
    + destruct (Path.ext_matchedSlash st) eqn:M; cbn [negb].
      * apply IH; [lia |].
        destruct I as [(E & D & _ & P & A) | (M' & _)]; [| congruence].
        left. repeat split; try assumption. intros k Hk.
        destruct (Nat.eq_dec k i) as [-> | Ne]; [exact Si | apply A; lia].
      * destruct I as [(_ & _ & M' & _) | (_ & LE & B & C & D)]; [congruence |].
        cbn. destruct D as [(D & _) | (D & P)]; [left; exact D |]. right. right.
        cbn. split; [exact LE |]. split; [lia |]. split; [| exact P].
        intros k Hk. apply C. lia.
    + apply IH; [lia |].
      assert (I1 : exists e, LastEnd e /\ Z.of_nat i < e /\ clear (Z.of_nat i) e /\
                   ((Path.startDot st = -1 /\ Path.preDotState st = 0) \/
                    (Z.of_nat i < Path.startDot st < e /\
                     (Path.preDotState st = 0 \/ 1 <= Path.startDot st))) /\
                   ((if Path.ext_end st =? -1 then Z.of_nat i + 1 else Path.ext_end st)
                    = e)).
      { destruct I as [(E & D & M & P & A) | (M & LE & B & C & D)].
        - exists (Z.of_nat i + 1). rewrite E. cbn.
          split; [| split; [lia | split; [| split; [left; split; assumption
                                                   | reflexivity]]]].
          + split; [lia |]. split.
            * replace (Z.to_nat (Z.of_nat i + 1 - 1)) with i by lia. exact Si.
            * intros k Hk Lk. apply A. lia.
          + intros k Hk. replace k with i by lia. exact Si.
        - exists (Path.ext_end st).
          assert ((Path.ext_end st =? -1) = false) as ->.
          { apply Z.eqb_neq. destruct LE. lia. }
          split; [exact LE |]. split; [lia |]. split; [| split; [| reflexivity]].
          + intros k Hk. destruct (Nat.eq_dec k i) as [-> | Ne]; [exact Si | apply C; lia].
          + destruct D as [D | (D & P)]; [left; exact D | right; split; [lia | exact P]]. }
      destruct I1 as (e & LE & B & C & D & He).
      assert (HM : (Path.ext_end st =? -1) = false -> Path.ext_matchedSlash st = false).
      { intros E1. destruct I as [(E' & _) | (M & _)]; [| exact M].
        rewrite E' in E1. discriminate. }
      right.
      destruct (Path.ext_end st =? -1) eqn:E1;
        destruct (Path.is_char Path.dot (JS.charAt path i));
        cbn [Path.startDot Path.startPart Path.ext_end Path.ext_matchedSlash
             Path.preDotState];
        destruct (Z.eqb_spec (Path.startDot st) (-1)) as [SD | SD]; cbn [negb];
        try destruct (Z.eqb_spec (Path.preDotState st) 1) as [P1 | P1]; cbn [negb];
        cbn [Path.startDot Path.startPart Path.ext_end Path.ext_matchedSlash
             Path.preDotState];
        rewrite ?He;
        (split; [first [reflexivity | apply HM; reflexivity]
                | split; [exact LE | split; [lia | split; [exact C |]]]]);
        destruct D as [(D & P) | (D & P)];
        first [left; split; [assumption | assumption]
              | right; split; [lia |]; first [left; assumption | right; lia
                                             | destruct P; [left; assumption | right; lia]]
              | lia].
Qed.

(** A non-empty extension is a stretch of the path that starts after
    index 0, ends at the last character that is not a separator and has
    no separator in it. *)
Lemma extname_shape :
  Path.extname path = EmptyString \/
  exists d e, Path.extname path = JS.slice path d e /\
              LastEnd e /\ 1 <= d < e /\ clear d e.
Proof.
  unfold Path.extname.
  match goal with |- context [Path.extname_loop path len ?s] => set (init := s) end.
  assert (P : Scan.ext_post path (Path.extname_loop path len init)).
  { apply extname_loop_post; [lia |]. left. cbn. repeat split; try reflexivity.
    intros k Hk. lia. }
  set (st := Path.extname_loop path len init) in *.
  destruct (Z.eqb_spec (Path.startDot st) (-1)) as [D | D]; [left; reflexivity |].
  destruct (Z.eqb_spec (Path.ext_end st) (-1)) as [E | E]; [left; reflexivity |].
  destruct (Z.eqb_spec (Path.preDotState st) 0) as [Q | Q]; [left; reflexivity |].
  cbn [orb].
  match goal with |- (if ?b then _ else _) = _ \/ _ => destruct b end;
    [left; reflexivity |].
  right. destruct P as [P | [P | (LE & R & C & [P | P])]]; try contradiction.
  exists (Path.startDot st), (Path.ext_end st).
  split; [reflexivity |]. split; [exact LE |]. split; [lia | exact C].
Qed.

Lemma basename_plain_loop_post n st :
  Scan.plain_inv path n st -> Scan.plain_post path (Path.basename_plain_loop path n st).
Proof.
  revert st. induction n as [| i IH]; intros st (S0 & I).
  - cbn [Path.basename_plain_loop]. destruct I as [(E & _) | (M & B & C)].
    + left. exact E.
    + right. rewrite S0. split; [lia | exact C].
  - cbn [Path.basename_plain_loop]. fold (Scan.slb path i). destruct (slb i) eqn:Si.
    + destruct (Path.b_matchedSlash st) eqn:M; cbn [negb].
      * apply IH. split; [exact S0 |]. destruct I as [(E & _) | (M' & _)]; [| congruence].
        left. split; [exact E | exact M].
      * destruct I as [(_ & M') | (_ & B & C)]; [congruence |].
        right. cbn. split; [lia |]. intros k Hk. apply C. lia.
    + destruct (Z.eqb_spec (Path.b_end st) (-1)) as [E | E]; apply IH.
      * split; [exact S0 |]. right. cbn. split; [reflexivity |]. split; [lia |].
        intros k Hk. replace k with i by lia. exact Si.
      * split; [exact S0 |]. destruct I as [(E' & _) | (M & B & C)]; [contradiction |].
        right. split; [exact M |]. split; [lia |]. intros k Hk.
        destruct (Nat.eq_dec k i) as [-> | Ne]; [exact Si | apply C; lia].
Qed.

Section Suffix.
Variables (suffix : string) (d e : Z).
Hypothesis He : LastEnd e.
Hypothesis Hd : 0 <= d < e.
Hypothesis Hc : clear d e.

Lemma basename_suffix_loop_post n st :
  (n <= len)%nat -> Scan.suffix_inv path d e n st ->
  Scan.suffix_post path e (Path.basename_suffix_loop path suffix n st).
Proof.
  revert st. induction n as [| i IH]; intros st Hn (S0 & I).
  - cbn [Path.basename_suffix_loop].
    destruct I as [(_ & _ & _ & _ & A) | (M & F & B & C & [(_ & X & Y) | (X & Y)])].
    + destruct He as (R & N & _). rewrite A in N by lia. discriminate.
    + lia.
    + unfold Scan.suffix_post. rewrite S0. repeat split; try lia; assumption.
  - cbn [Path.basename_suffix_loop]. fold (Scan.slb path i). destruct (slb i) eqn:Si.
    + destruct (Path.b_matchedSlash st) eqn:M; cbn [negb].
      * apply IH; [lia |]. split; [exact S0 |].
        destruct I as [(F & _ & E & X & A) | (M' & _)]; [| congruence].
        left. repeat split; try assumption. intros k Hk.
        destruct (Nat.eq_dec k i) as [-> | Ne]; [exact Si | apply A; lia].
      * destruct I as [(_ & M' & _) | (_ & F & B & C & [(_ & X & Y) | (X & Y)])];
          [congruence | |].
        -- rewrite (Hc i) in Si by lia. discriminate.
        -- unfold Scan.suffix_post. cbn. repeat split; try lia; try assumption.
           intros k Hk. apply C. lia.
    + apply IH; [lia |].
      assert (J : Z.of_nat i < e /\ clear (Z.of_nat i) e /\
                  ((if Path.firstNonSlashEnd st =? -1 then Z.of_nat i + 1
                    else Path.firstNonSlashEnd st) = e) /\
                  ((Path.firstNonSlashEnd st =? -1) = false ->
                   Path.b_matchedSlash st = false) /\
                  ((Path.b_end st = -1 /\ 0 <= Path.extIdx st /\
                    Path.extIdx st = e - d - 1 - (e - (Z.of_nat i + 1)))
                   \/ (Path.extIdx st = -1 /\ Z.of_nat i + 1 <= Path.b_end st <= e))).
      { destruct I as [(F & M & E & X & A) | (M & F & B & C & Y)].
        - assert (e = Z.of_nat i + 1) as ->.
          { apply LastEnd_unique; [exact He | exact Si | lia |].
            intros k Hk Lk. apply A. lia. }
          rewrite F. cbn. split; [lia |]. split.
          + intros k Hk. replace k with i by lia. exact Si.
          + split; [reflexivity |]. split; [discriminate |]. left. lia.
        - rewrite F. assert ((e =? -1) = false) as -> by (apply Z.eqb_neq; lia).
          split; [lia |]. split.
          + intros k Hk. destruct (Nat.eq_dec k i) as [-> | Ne]; [exact Si | apply C; lia].
          + split; [reflexivity |]. split; [intros _; exact M |].
            destruct Y as [Y | Y]; [left | right]; lia. }
      destruct J as (B & C & F & HM & Y).
      unfold Scan.suffix_inv.
      repeat match goal with
             | |- context [if ?b then _ else _] => let E := fresh "E" in destruct b eqn:E
             end;
        cbv iota in F;
        cbn [Path.b_start Path.b_end Path.b_matchedSlash Path.extIdx
             Path.firstNonSlashEnd] in *;
        repeat match goal with
               | H : (_ =? _) = true |- _ => apply Z.eqb_eq in H
               | H : (_ =? _) = false |- _ => apply Z.eqb_neq in H
               | H : (_ <=? _) = true |- _ => apply Z.leb_le in H
               | H : (_ <=? _) = false |- _ => apply Z.leb_gt in H
               end;
        (split; [exact S0 |]); right;
        (split; [first [reflexivity | apply HM; reflexivity]
                | split; [first [exact F | reflexivity] | split; [lia | split; [exact C |]]]]);
        destruct Y as [Y | Y]; first [left; lia | right; lia].
Qed.

End Suffix.

(** Without a suffix [basename] returns a stretch without separators. *)
Lemma basename_plain_no_slash :
  no_slash (Path.basename path EmptyString) = true.
Proof.
  unfold Path.basename. cbn [JS.strlen String.length Z.of_nat Z.ltb Z.compare andb].
  match goal with |- context [Path.basename_plain_loop path len ?s] => set (init := s) end.
  assert (P : Scan.plain_post path (Path.basename_plain_loop path len init)).
  { apply basename_plain_loop_post. split; [reflexivity |]. left. split; reflexivity. }
  set (st := Path.basename_plain_loop path len init) in *.
  destruct (Z.eqb_spec (Path.b_end st) (-1)) as [E | E]; [reflexivity |].
  destruct P as [P | (R & C)]; [contradiction |].
  apply slice_clear; [lia | exact C].
Qed.

(** With the lowered extension of the path as suffix, too. *)
Lemma basename_ext_no_slash :
  no_slash (Path.basename path (JS.toLowerCase (Path.extname path))) = true.
Proof.
  destruct extname_shape as [-> | (d & e & X & LE & Hd1 & C)];
    [exact basename_plain_no_slash |].
  assert (Hd : 0 <= d < e) by lia.
  set (suffix := JS.toLowerCase (Path.extname path)).
  assert (Ls : JS.strlen suffix = e - d).
  { unfold suffix, JS.strlen. rewrite length_toLowerCase, X. unfold JS.slice.
    rewrite length_substring; [lia |]. destruct LE as (R & _). lia. }
  unfold Path.basename. rewrite Ls.
  assert ((0 <? e - d) = true) as -> by (apply Z.ltb_lt; lia).
  assert ((e - d <=? JS.strlen path) = true) as ->.
  { apply Z.leb_le. destruct LE as (R & _). unfold JS.strlen. lia. }
  cbn [andb]. destruct (String.eqb suffix path); [reflexivity |].
  match goal with
  | |- context [Path.basename_suffix_loop path suffix len ?s] => set (init := s)
  end.
  assert (P : Scan.suffix_post path e (Path.basename_suffix_loop path suffix len init)).
  { apply (basename_suffix_loop_post suffix d e LE Hd C); [lia |].
    split; [reflexivity |]. left. cbn. repeat split; try reflexivity. intros k Hk. lia. }
  set (st := Path.basename_suffix_loop path suffix len init) in *.
  destruct P as (S0 & F & Cl & R).
  apply slice_clear; [exact S0 |].
  destruct (Z.eqb_spec (Path.b_start st) (Path.b_end st)) as [E | E].
  - rewrite F. exact Cl.
  - destruct (Z.eqb_spec (Path.b_end st) (-1)) as [E' | E']; [lia |].
    intros k Hk. apply Cl. lia.
Qed.

Lemma extname_no_slash : no_slash (Path.extname path) = true.
Proof.
  destruct extname_shape as [-> | (d & e & -> & _ & Hd & C)]; [reflexivity |].
  apply slice_clear; [lia | exact C].
Qed.

End ScanFacts.

(** ** Numbers in a name *)

Lemma string_of_uint_no_slash d : no_slash (NilEmpty.string_of_uint d) = true.
Proof. induction d; cbn; try reflexivity; exact IHd. Qed.

Lemma num_no_slash z : no_slash (JS.num z) = true.
Proof.
  unfold JS.num, NilZero.string_of_int.
  destruct (Z.to_int z) as [d | d]; unfold NilZero.string_of_uint.
  - destruct d; try reflexivity; apply (string_of_uint_no_slash (_ d)).
  - destruct d; try reflexivity; cbn [no_slash Str.all_chars];
      apply (string_of_uint_no_slash (_ d)).
Qed.

Lemma baseName_no_slash name : no_slash (baseName name) = true.
Proof. unfold baseName. apply basename_ext_no_slash. Qed.

(** ** Stored names *)

Lemma outputFilename_no_slash E originalName :
  no_slash (outputFilename E originalName) = true.
Proof.
  unfold outputFilename, no_slash. rewrite !all_chars_app.
  fold (no_slash (JS.num (Date_now E))). fold (no_slash (JS.num (uniqueSuffix E))).
  fold (no_slash (baseName originalName)).
  rewrite !num_no_slash, baseName_no_slash. reflexivity.
Qed.

(** X14: whatever the original name, the name [processImage] stores under
    has no path separator in it, so the file lands directly in
    [uploads/]. *)
Theorem outputFilename_no_separator E originalName :
  no_slash (outputFilename E originalName) = true /\
  outputPath E originalName = "uploads/" +:+ outputFilename E originalName.
Proof. split; [apply outputFilename_no_slash | reflexivity]. Qed.

(** X15: the earlier disk-storage route keeps only the extension of the
    original name, so its stored name has no path separator either. *)
Theorem legacy_filename_no_separator E originalname :
  no_slash (legacy_filename E originalname) = true.
Proof.
  unfold legacy_filename, no_slash. rewrite !all_chars_app.
  fold (no_slash (JS.num (Date_now E))). fold (no_slash (JS.num (uniqueSuffix E))).
  fold (no_slash (Path.extname originalname)).
  rewrite !num_no_slash, extname_no_slash. reflexivity.
Qed.

(** ** Names without separators *)

Lemma substring_full s : String.substring 0 (String.length s) s = s.
Proof. induction s as [| c r IH]; cbn; [reflexivity | rewrite IH; reflexivity]. Qed.

Lemma substring_split s d :
  (d <= String.length s)%nat ->
  String.substring 0 d s +:+ String.substring d (String.length s - d) s = s.
Proof.
  revert d. induction s as [| c r IH]; intros d H.
  - cbn in H. assert (d = O) by lia. subst. reflexivity.
  - destruct d as [| d].
    + change (String.substring 0 0 (String c r)) with EmptyString.
      rewrite Nat.sub_0_r. apply substring_full.
    + cbn in H.
      transitivity (String c (String.substring 0 d r
                              +:+ String.substring d (String.length r - d) r));
        [reflexivity |]. f_equal. apply IH. lia.
Qed.

Lemma append_empty_r s : s +:+ EmptyString = s.
Proof.
  induction s as [| c r IH]; [reflexivity |].
  change (String c (r +:+ EmptyString) = String c r). f_equal. exact IH.
Qed.

Lemma same_char_refl c : Path.same_char (Some c) (Some c) = true.
Proof. unfold Path.same_char. destruct (ascii_dec c c); [reflexivity | contradiction]. Qed.

Section FlatFacts.
Variable path : string.
Hypothesis flat : no_slash path = true.

Local Abbreviation len := (String.length path).

Lemma flat_slb k : Scan.slb path k = false.
Proof.
  unfold Scan.slb, JS.charAt. destruct (String.get k path) as [c |] eqn:G; [| reflexivity].
  pose proof (get_all_chars _ _ _ _ flat G) as N. unfold not_slash in N.
  apply negb_true_iff in N. exact N.
Qed.

Lemma flat_plain_loop n st :
  (n <= len)%nat -> ScanFlat.plain_inv path n st ->
  Path.b_start (Path.basename_plain_loop path n st) = 0 /\
  ((len = O /\ Path.b_end (Path.basename_plain_loop path n st) = -1) \/
   Path.b_end (Path.basename_plain_loop path n st) = Z.of_nat len).
Proof.
  revert st. induction n as [| i IH]; intros st Hn (S0 & I).
  - cbn [Path.basename_plain_loop]. split; [exact S0 |].
    destruct I as [(L & E) | E]; [left; split; [congruence | exact E] | right; exact E].
  - cbn [Path.basename_plain_loop]. fold (Scan.slb path i). rewrite flat_slb.
    destruct (Z.eqb_spec (Path.b_end st) (-1)) as [E | E]; apply IH; try lia.
    + split; [exact S0 |]. right. cbn. destruct I as [(L & _) | E']; lia.
    + split; [exact S0 |]. right. destruct I as [(_ & E') | E']; [contradiction | exact E'].
Qed.

(** Without a suffix, [basename] returns the whole name. *)
Lemma flat_basename_plain : Path.basename path EmptyString = path.
Proof.
  unfold Path.basename. cbn [JS.strlen String.length Z.of_nat Z.ltb Z.compare andb].
  match goal with |- context [Path.basename_plain_loop path len ?s] => set (init := s) end.
  assert (P : ScanFlat.plain_inv path len init).
  { split; [reflexivity |]. left. split; reflexivity. }
  destruct (flat_plain_loop len init (Nat.le_refl _) P) as (S0 & [(L & E) | E]).
  - rewrite E. cbn. destruct path; [reflexivity | discriminate].
  - rewrite E, S0.
    destruct (Z.eqb_spec (Z.of_nat len) (-1)) as [X | X]; [lia |].
    unfold JS.slice. replace (Z.to_nat 0) with O by reflexivity.
    replace (Z.to_nat (Z.of_nat len - 0)) with len by lia. apply substring_full.
Qed.

Section FlatSuffix.
Variables (suffix : string) (d : Z).
Hypothesis Hd : 1 <= d < Z.of_nat len.
Hypothesis Hs : suffix = JS.slice path d (Z.of_nat len).

Lemma flat_suffix_char i :
  d <= Z.of_nat i -> (i < len)%nat ->
  Path.same_char (JS.charAt path i) (JS.charAt suffix (Z.to_nat (Z.of_nat i - d))) = true.
Proof.
  intros L U. unfold JS.charAt. rewrite Hs. unfold JS.slice.
  rewrite String.substring_correct1 by lia.
  replace (Z.to_nat (Z.of_nat i - d) + Z.to_nat d)%nat with i by lia.
  destruct (String.get i path) as [c |] eqn:G; [apply same_char_refl |].
  exfalso. revert G U. clear. generalize path. induction i as [| i IH]; intros s G U;
    destruct s; cbn in *; try discriminate; try lia. apply (IH s G). lia.
Qed.

Lemma flat_suffix_loop n st :
  (n <= len)%nat -> ScanFlat.suffix_inv path d n st ->
  Path.b_start (Path.basename_suffix_loop path suffix n st) = 0 /\
  Path.b_end (Path.basename_suffix_loop path suffix n st) = d.
Proof.
  revert st. induction n as [| i IH]; intros st Hn (S0 & I).
  - cbn [Path.basename_suffix_loop]. split; [exact S0 |].
    destruct I as [(L & _) | (_ & _ & [(X & _) | (_ & E & _)])]; [lia | lia | exact E].
  - cbn [Path.basename_suffix_loop]. fold (Scan.slb path i). rewrite flat_slb.
    apply IH; [lia |].
    assert (J : (d < Z.of_nat (S i) /\ Path.b_end st = -1 /\
                 Path.extIdx st = Z.of_nat i - d) \/
                (Z.of_nat (S i) <= d /\ Path.b_end st = d /\ Path.extIdx st = -1 /\
                 Path.firstNonSlashEnd st = Z.of_nat len)).
    { destruct I as [(L & F & M & E & X) | (F & M & [(A & E & X) | (A & E & X)])].
      - left. lia.
      - left. lia.
      - right. repeat split; assumption. }
    assert (F : (if Path.firstNonSlashEnd st =? -1 then Z.of_nat i + 1
                 else Path.firstNonSlashEnd st) = Z.of_nat len).
    { destruct I as [(L & F & _) | (F & _)]; rewrite F.
      - cbn. lia.
      - destruct (Z.eqb_spec (Z.of_nat len) (-1)); [lia | reflexivity]. }
    assert (HM : (Path.firstNonSlashEnd st =? -1) = false ->
                 Path.b_matchedSlash st = false).
    { intros X. destruct I as [(_ & F' & _) | (_ & M & _)]; [| exact M].
      rewrite F' in X. discriminate. }
    destruct J as [(A & E & X) | (A & E & X & F')].
    + pose proof (flat_suffix_char i ltac:(lia) ltac:(lia)) as SC. rewrite <- X in SC.
      unfold ScanFlat.suffix_inv.
      destruct (Path.firstNonSlashEnd st =? -1) eqn:F1;
        cbv iota in F;
        cbn [Path.b_start Path.b_end Path.b_matchedSlash Path.extIdx
             Path.firstNonSlashEnd];
        (destruct (Z.leb_spec 0 (Path.extIdx st)) as [X0 | X0]; [| lia]);
        rewrite SC;
        destruct (Z.eqb_spec (Path.extIdx st - 1) (-1)) as [X1 | X1];
        cbn [Path.b_start Path.b_end Path.b_matchedSlash Path.extIdx
             Path.firstNonSlashEnd];
        (split; [exact S0 |]); right;
        (split; [exact F |]);
        (split; [first [reflexivity | apply HM; reflexivity] |]);
        first [left; lia | right; lia].
    + unfold ScanFlat.suffix_inv.
      assert ((Path.firstNonSlashEnd st =? -1) = false) as F1.
      { rewrite F'. apply Z.eqb_neq. lia. }
      rewrite F1. destruct (Z.leb_spec 0 (Path.extIdx st)) as [X0 | X0]; [lia |].
      split; [exact S0 |]. right. split; [exact F' |].
      split; [apply HM; exact F1 |]. right. lia.
Qed.

Lemma flat_basename_suffix :
  Path.basename path suffix = JS.slice path 0 d.
Proof.
  assert (Ls : JS.strlen suffix = Z.of_nat len - d).
  { rewrite Hs. unfold JS.strlen, JS.slice. rewrite length_substring; lia. }
  unfold Path.basename. rewrite Ls.
  assert ((0 <? Z.of_nat len - d) = true) as -> by (apply Z.ltb_lt; lia).
  assert ((Z.of_nat len - d <=? JS.strlen path) = true) as ->.
  { apply Z.leb_le. unfold JS.strlen. lia. }
  cbn [andb].
  assert ((suffix =? path)%string = false) as ->.
  { apply String.eqb_neq. intros X. rewrite X in Ls. unfold JS.strlen in Ls. lia. }
  match goal with
  | |- context [Path.basename_suffix_loop path suffix len ?s] => set (init := s)
  end.
  assert (P : ScanFlat.suffix_inv path d len init).
  { split; [reflexivity |]. left. cbn. repeat split; reflexivity. }
  destruct (flat_suffix_loop len init (Nat.le_refl _) P) as (S0 & E).
  rewrite S0, E.
  destruct (Z.eqb_spec 0 d) as [X | X]; [lia |].
  destruct (Z.eqb_spec d (-1)) as [Y | Y]; [lia |]. reflexivity.
Qed.

End FlatSuffix.

Lemma flat_LastEnd e : Scan.LastEnd path e -> e = Z.of_nat len.
Proof.
  intros (R & _ & A).
  destruct (Z.eq_dec e (Z.of_nat len)) as [E | E]; [exact E |].
  specialize (A (Z.to_nat e) ltac:(lia) ltac:(lia)). rewrite flat_slb in A. discriminate.
Qed.

(** A name without separators whose extension is in lower case is its
    base name followed by its extension. *)
Lemma flat_baseName_ext :
  JS.toLowerCase (Path.extname path) = Path.extname path ->
  baseName path +:+ Path.extname path = path.
Proof.
  intros Hl. unfold baseName. rewrite Hl.
  destruct (extname_shape path) as [X | (d & e & X & LE & Hd & C)].
  - rewrite X. rewrite flat_basename_plain. apply append_empty_r.
  - pose proof (flat_LastEnd e LE) as ->.
    rewrite (flat_basename_suffix (Path.extname path) d Hd X). rewrite X.
    unfold JS.slice. replace (Z.to_nat 0) with O by reflexivity.
    replace (Z.to_nat (d - 0)) with (Z.to_nat d) by lia.
    replace (Z.to_nat (Z.of_nat len - d)) with (len - Z.to_nat d)%nat by lia.
    apply substring_split. lia.
Qed.

End FlatFacts.

(** X16: for an ASCII original name without a path separator whose
    extension is already in lower case (or absent), the stored name is the
    timestamp, the random number and the name with its extension replaced
    by [.webp]: the base name followed by the extension is the original
    name. *)
Theorem lowercase_extension_replaced E originalName :
  Str.all_chars Slug.is_ascii originalName = true ->
  no_slash originalName = true ->
  JS.toLowerCase (Path.extname originalName) = Path.extname originalName ->
  baseName originalName +:+ Path.extname originalName = originalName /\
  outputFilename E originalName
    = JS.num (Date_now E) +:+ "-" +:+ JS.num (uniqueSuffix E) +:+ "-"
        +:+ baseName originalName +:+ ".webp".
Proof.
  intros _ F L. split; [apply flat_baseName_ext; assumption | reflexivity].
Qed.

Lemma lowercase_extension_replaced_witness :
  baseName "holiday.photo.jpeg" +:+ Path.extname "holiday.photo.jpeg"
    = "holiday.photo.jpeg" /\
  outputFilename (Demo.env 800 600) "holiday.photo.jpeg"
    = JS.num (Date_now (Demo.env 800 600)) +:+ "-"
        +:+ JS.num (uniqueSuffix (Demo.env 800 600)) +:+ "-"
        +:+ baseName "holiday.photo.jpeg" +:+ ".webp".
Proof.
  apply (lowercase_extension_replaced (Demo.env 800 600) "holiday.photo.jpeg");
    reflexivity.
Defined.

(** ** Slugs *)

Section SlugFacts.
Import Slug.

Local Ltac by_cases c :=
  destruct c as [[] [] [] [] [] [] [] []]; vm_compute; try reflexivity; try discriminate;
  auto.

Lemma lower_char_not_upper c : is_upper (JS.lower_char c) = false.
Proof. by_cases c. Qed.

Lemma lower_char_alnum c : is_alnum (JS.lower_char c) = is_alnum c.
Proof. by_cases c. Qed.

Lemma slug_char_lower_fixed c : is_slug_char c = true -> JS.lower_char c = c.
Proof. by_cases c. Qed.

Lemma slug_char_kept c :
  is_slug_char c = true -> is_word c || is_space c || is_hyphen c = true.
Proof. by_cases c. Qed.

Lemma slug_char_sep c : is_slug_char c = true -> is_sep c = is_hyphen c.
Proof. by_cases c. Qed.

Lemma hyphen_is c : is_hyphen c = true -> c = "-"%char.
Proof. by_cases c. Qed.

Lemma kept_not_sep_is_slug_char c :
  is_word c || is_space c || is_hyphen c = true ->
  is_upper c = false -> is_sep c = false -> is_slug_char c = true.
Proof. by_cases c. Qed.

Lemma not_sep_not_hyphen c : is_sep c = false -> is_hyphen c = false.
Proof. by_cases c. Qed.

Lemma alnum_kept c : is_alnum c = true -> is_word c || is_space c || is_hyphen c = true.
Proof. by_cases c. Qed.

Lemma sep_not_alnum c : is_sep c = true -> is_alnum c = false.
Proof. by_cases c. Qed.

Lemma slug_char_not_alnum_is_hyphen c :
  is_slug_char c = true -> is_alnum c = false -> is_hyphen c = true.
Proof. by_cases c. Qed.

Lemma remove_other_lower_chars t :
  Str.all_chars is_kept_lower (remove_other (JS.toLowerCase t)) = true.
Proof.
  induction t as [| c r IH]; [reflexivity |].
  cbn [JS.toLowerCase remove_other].
  destruct (is_word (JS.lower_char c) || is_space (JS.lower_char c)
            || is_hyphen (JS.lower_char c)) eqn:K; [| exact IH].
  cbn [Str.all_chars]. rewrite IH. unfold is_kept_lower.
  rewrite K, lower_char_not_upper. reflexivity.
Qed.

Lemma collapse_seps_chars b s :
  Str.all_chars is_kept_lower s = true ->
  Str.all_chars is_slug_char (collapse_seps b s) = true.
Proof.
  revert b. induction s as [| c r IH]; intros b H; [reflexivity |].
  cbn [Str.all_chars] in H. apply andb_true_iff in H as [Hc Hr].
  cbn [collapse_seps]. destruct (is_sep c) eqn:S.
  - destruct b; cbn [Str.all_chars]; rewrite ?IH by assumption; reflexivity.
  - cbn [Str.all_chars]. rewrite (IH false Hr). rewrite andb_true_r.
    unfold is_kept_lower in Hc. apply andb_true_iff in Hc as [K U].
    apply negb_true_iff in U. apply kept_not_sep_is_slug_char; assumption.
Qed.

Lemma drop_leading_chars P s :
  Str.all_chars P s = true -> Str.all_chars P (drop_leading_hyphens s) = true.
Proof.
  induction s as [| c r IH]; intros H; [reflexivity |].
  cbn [drop_leading_hyphens]. destruct (is_hyphen c); [| exact H].
  cbn [Str.all_chars] in H. apply andb_true_iff in H as [_ Hr]. auto.
Qed.

Lemma drop_trailing_chars P s :
  Str.all_chars P s = true -> Str.all_chars P (drop_trailing_hyphens s) = true.
Proof.
  induction s as [| c r IH]; intros H; [reflexivity |].
  cbn [Str.all_chars] in H. apply andb_true_iff in H as [Hc Hr].
  cbn [drop_trailing_hyphens]. specialize (IH Hr).
  destruct (drop_trailing_hyphens r) as [| c' r'].
  - destruct (is_hyphen c); [reflexivity |]. cbn [Str.all_chars]. rewrite Hc. reflexivity.
  - cbn [Str.all_chars] in *. rewrite Hc. exact IH.
Qed.

Lemma generateSlug_chars title :
  Str.all_chars is_slug_char (generateSlug title) = true.
Proof.
  unfold generateSlug, trim_hyphens.
  apply drop_trailing_chars, drop_leading_chars, collapse_seps_chars,
    remove_other_lower_chars.
Qed.

Lemma drop_leading_start s : starts_with_hyphen (drop_leading_hyphens s) = false.
Proof.
  induction s as [| c r IH]; [reflexivity |].
  cbn [drop_leading_hyphens]. destruct (is_hyphen c) eqn:H; [exact IH |].
  cbn [starts_with_hyphen]. exact H.
Qed.

Lemma drop_trailing_start s :
  starts_with_hyphen s = false -> starts_with_hyphen (drop_trailing_hyphens s) = false.
Proof.
  destruct s as [| c r]; [reflexivity |]. cbn [starts_with_hyphen drop_trailing_hyphens].
  intros H. destruct (drop_trailing_hyphens r); [rewrite H |]; cbn [starts_with_hyphen];
    assumption.
Qed.

Lemma drop_trailing_end s : ends_with_hyphen (drop_trailing_hyphens s) = false.
Proof.
  induction s as [| c r IH]; [reflexivity |].
  cbn [drop_trailing_hyphens].
  destruct (drop_trailing_hyphens r) as [| c' r'].
  - destruct (is_hyphen c) eqn:H; [reflexivity |]. cbn [ends_with_hyphen]. exact H.
  - cbn [ends_with_hyphen] in *. exact IH.
Qed.

Lemma generateSlug_start title : starts_with_hyphen (generateSlug title) = false.
Proof. unfold generateSlug, trim_hyphens. apply drop_trailing_start, drop_leading_start. Qed.

Lemma generateSlug_end title : ends_with_hyphen (generateSlug title) = false.
Proof. unfold generateSlug, trim_hyphens. apply drop_trailing_end. Qed.

Lemma collapse_seps_no_double b s :
  has_double_hyphen (collapse_seps b s) = false /\
  (b = true -> starts_with_hyphen (collapse_seps b s) = false).
Proof.
  revert b. induction s as [| c r IH]; intros b; [split; reflexivity |].
  cbn [collapse_seps]. destruct (is_sep c) eqn:S.
  - destruct b.
    + apply IH.
    + destruct (IH true) as [D St]. split; [| discriminate].
      cbn [has_double_hyphen]. rewrite D, (St eq_refl), andb_false_r. reflexivity.
  - destruct (IH false) as [D _]. cbn [has_double_hyphen starts_with_hyphen].
    rewrite D, (not_sep_not_hyphen c S). split; [reflexivity | intros _; reflexivity].
Qed.

Lemma drop_leading_no_double s :
  has_double_hyphen s = false -> has_double_hyphen (drop_leading_hyphens s) = false.
Proof.
  induction s as [| c r IH]; intros H; [reflexivity |].
  cbn [drop_leading_hyphens]. destruct (is_hyphen c); [| exact H].
  cbn [has_double_hyphen] in H. apply orb_false_iff in H as [_ Hr]. auto.
Qed.

Lemma drop_trailing_start_inv s :
  starts_with_hyphen (drop_trailing_hyphens s) = true -> starts_with_hyphen s = true.
Proof.
  destruct s as [| c r]; [discriminate |]. cbn [starts_with_hyphen drop_trailing_hyphens].
  destruct (drop_trailing_hyphens r).
  - destruct (is_hyphen c) eqn:H; [reflexivity |]. cbn [starts_with_hyphen]. congruence.
  - cbn [starts_with_hyphen]. auto.
Qed.

Lemma drop_trailing_no_double s :
  has_double_hyphen s = false -> has_double_hyphen (drop_trailing_hyphens s) = false.
Proof.
  induction s as [| c r IH]; intros H; [reflexivity |].
  cbn [has_double_hyphen] in H. apply orb_false_iff in H as [Hc Hr].
  specialize (IH Hr). cbn [drop_trailing_hyphens].
  pose proof (drop_trailing_start_inv r) as Si.
  destruct (drop_trailing_hyphens r) as [| c' r'].
  - destruct (is_hyphen c); [reflexivity |]. cbn. rewrite andb_false_r. reflexivity.
  - cbn [has_double_hyphen] in *. rewrite IH, orb_false_r.
    destruct (is_hyphen c); [| reflexivity]. cbn [andb] in *.
    destruct (starts_with_hyphen (String c' r')); [| reflexivity].
    rewrite Si in Hc by reflexivity. discriminate.
Qed.

Lemma generateSlug_no_double title : has_double_hyphen (generateSlug title) = false.
Proof.
  unfold generateSlug, trim_hyphens.
  apply drop_trailing_no_double, drop_leading_no_double, collapse_seps_no_double.
Qed.

(** A string that already looks like a slug goes through every step
    unchanged. *)
Lemma toLowerCase_slug s : Str.all_chars is_slug_char s = true -> JS.toLowerCase s = s.
Proof.
  induction s as [| c r IH]; intros H; [reflexivity |].
  cbn [Str.all_chars] in H. apply andb_true_iff in H as [Hc Hr].
  cbn [JS.toLowerCase]. rewrite (slug_char_lower_fixed c Hc), (IH Hr). reflexivity.
Qed.

Lemma remove_other_slug s : Str.all_chars is_slug_char s = true -> remove_other s = s.
Proof.
  induction s as [| c r IH]; intros H; [reflexivity |].
  cbn [Str.all_chars] in H. apply andb_true_iff in H as [Hc Hr].
  cbn [remove_other]. rewrite (slug_char_kept c Hc), (IH Hr). reflexivity.
Qed.

Lemma collapse_seps_slug b s :
  Str.all_chars is_slug_char s = true ->
  has_double_hyphen s = false ->
  (b = true -> starts_with_hyphen s = false) ->
  collapse_seps b s = s.
Proof.
  revert b. induction s as [| c r IH]; intros b H D St; [reflexivity |].
  cbn [Str.all_chars] in H. apply andb_true_iff in H as [Hc Hr].
  cbn [has_double_hyphen] in D. apply orb_false_iff in D as [Dc Dr].
  cbn [collapse_seps]. rewrite (slug_char_sep c Hc).
  destruct (is_hyphen c) eqn:Hy.
  - destruct b.
    + specialize (St eq_refl). cbn [starts_with_hyphen] in St. congruence.
    + cbn [andb] in Dc. rewrite (IH true Hr Dr (fun _ => Dc)).
      rewrite (hyphen_is c Hy). reflexivity.
  - rewrite (IH false Hr Dr); [reflexivity | discriminate].
Qed.

Lemma drop_leading_slug s : starts_with_hyphen s = false -> drop_leading_hyphens s = s.
Proof.
  destruct s as [| c r]; [reflexivity |]. cbn. intros ->. reflexivity.
Qed.

Lemma drop_trailing_slug s : ends_with_hyphen s = false -> drop_trailing_hyphens s = s.
Proof.
  induction s as [| c r IH]; intros H; [reflexivity |].
  cbn [drop_trailing_hyphens]. destruct r as [| c' r'].
  - cbn in *. rewrite H. reflexivity.
  - rewrite IH by exact H. reflexivity.
Qed.

(** The steps keep whether the text has a letter or a digit. *)
Lemma toLowerCase_alnum s :
  Str.some_char is_alnum (JS.toLowerCase s) = Str.some_char is_alnum s.
Proof.
  induction s as [| c r IH]; [reflexivity |].
  cbn [JS.toLowerCase Str.some_char]. rewrite lower_char_alnum, IH. reflexivity.
Qed.

Lemma remove_other_alnum s : Str.some_char is_alnum (remove_other s) = Str.some_char is_alnum s.
Proof.
  induction s as [| c r IH]; [reflexivity |].
  cbn [remove_other Str.some_char]. pose proof (alnum_kept c) as K.
  destruct (is_word c || is_space c || is_hyphen c).
  - cbn [Str.some_char]. rewrite IH. reflexivity.
  - destruct (is_alnum c); [discriminate (K eq_refl) |]. exact IH.
Qed.

Lemma collapse_seps_alnum b s :
  Str.some_char is_alnum (collapse_seps b s) = Str.some_char is_alnum s.
Proof.
  revert b. induction s as [| c r IH]; intros b; [reflexivity |].
  cbn [collapse_seps Str.some_char]. destruct (is_sep c) eqn:S.
  - rewrite (sep_not_alnum c S). destruct b; cbn [Str.some_char]; rewrite IH; reflexivity.
  - cbn [Str.some_char]. rewrite IH. reflexivity.
Qed.

Lemma hyphen_not_alnum c : is_hyphen c = true -> is_alnum c = false.
Proof. by_cases c. Qed.

Lemma drop_leading_alnum s :
  Str.some_char is_alnum (drop_leading_hyphens s) = Str.some_char is_alnum s.
Proof.
  induction s as [| c r IH]; [reflexivity |].
  cbn [drop_leading_hyphens Str.some_char]. destruct (is_hyphen c) eqn:H; [| reflexivity].
  rewrite (hyphen_not_alnum c H). exact IH.
Qed.

Lemma drop_trailing_alnum s :
  Str.some_char is_alnum (drop_trailing_hyphens s) = Str.some_char is_alnum s.
Proof.
  induction s as [| c r IH]; [reflexivity |].
  cbn [drop_trailing_hyphens Str.some_char]. rewrite <- IH.
  destruct (drop_trailing_hyphens r) as [| c' r'].
  - destruct (is_hyphen c) eqn:H.
    + rewrite (hyphen_not_alnum c H). reflexivity.
    + reflexivity.
  - reflexivity.
Qed.

Lemma generateSlug_alnum title :
  Str.some_char is_alnum (generateSlug title) = Str.some_char is_alnum title.
Proof.
  unfold generateSlug, trim_hyphens.
  rewrite drop_trailing_alnum, drop_leading_alnum, collapse_seps_alnum,
    remove_other_alnum, toLowerCase_alnum. reflexivity.
Qed.


(** X1: a slug is made of lower-case letters, digits and hyphens only. *)
Theorem slug_characters title :
  Str.all_chars is_ascii title = true ->
  Str.all_chars is_slug_char (generateSlug title) = true.
Proof. intros _. apply generateSlug_chars. Qed.

Lemma slug_characters_witness :
  Str.all_chars is_slug_char (generateSlug "C++ & Rust: a_b - c") = true.
Proof. apply (slug_characters "C++ & Rust: a_b - c"). reflexivity. Defined.

(** X2: a slug neither starts nor ends with a hyphen and has no two hyphens
    in a row. *)
Theorem slug_hyphens title :
  Str.all_chars is_ascii title = true ->
  starts_with_hyphen (generateSlug title) = false /\
  ends_with_hyphen (generateSlug title) = false /\
  has_double_hyphen (generateSlug title) = false.
Proof.
  intros _. split; [apply generateSlug_start |].
  split; [apply generateSlug_end | apply generateSlug_no_double].
Qed.

Lemma slug_hyphens_witness :
  starts_with_hyphen (generateSlug "  --Hello__World--  ") = false /\
  ends_with_hyphen (generateSlug "  --Hello__World--  ") = false /\
  has_double_hyphen (generateSlug "  --Hello__World--  ") = false.
Proof. apply (slug_hyphens "  --Hello__World--  "). reflexivity. Defined.

(** X3: the slug of a slug is the slug itself. *)
Theorem slug_idempotent title :
  Str.all_chars is_ascii title = true ->
  generateSlug (generateSlug title) = generateSlug title.
Proof.
  intros _. set (s := generateSlug title).
  pose proof (generateSlug_chars title) as C.
  pose proof (generateSlug_start title) as S1.
  pose proof (generateSlug_end title) as S2.
  pose proof (generateSlug_no_double title) as D. fold s in C, S1, S2, D.
  unfold generateSlug, trim_hyphens.
  rewrite (toLowerCase_slug s C), (remove_other_slug s C).
  rewrite (collapse_seps_slug false s C D) by discriminate.
  rewrite (drop_leading_slug s S1). apply drop_trailing_slug. exact S2.
Qed.

Lemma slug_idempotent_witness :
  generateSlug (generateSlug "Hello, World!") = generateSlug "Hello, World!".
Proof. apply (slug_idempotent "Hello, World!"). reflexivity. Defined.

(** X4: the slug is empty exactly when the title has no letter and no
    digit. *)
Theorem slug_empty_iff title :
  Str.all_chars is_ascii title = true ->
  generateSlug title = EmptyString <-> Str.some_char is_alnum title = false.
Proof.
  intros _. rewrite <- generateSlug_alnum. split; [intros ->; reflexivity |].
  intros A. pose proof (generateSlug_chars title) as C.
  pose proof (generateSlug_start title) as S1.
  destruct (generateSlug title) as [| c r]; [reflexivity |].
  cbn [Str.all_chars Str.some_char starts_with_hyphen] in *.
  apply andb_true_iff in C as [Cc _]. apply orb_false_iff in A as [Ac _].
  rewrite (slug_char_not_alnum_is_hyphen c Cc Ac) in S1. discriminate.
Qed.

Lemma slug_empty_iff_witness :
  generateSlug "?! - _" = EmptyString <-> Str.some_char is_alnum "?! - _" = false.
Proof. apply (slug_empty_iff "?! - _"). reflexivity. Defined.

End SlugFacts.

(** ** The query of the post list *)

(** X5: the SQL text of [GET /api/posts] has exactly as many placeholders
    as values are bound to it, whatever the parameters. *)
Theorem list_query_placeholders search category featured :
  Posts.placeholders (fst (Posts.list_query search category featured))
  = length (snd (Posts.list_query search category featured)).
Proof.
  unfold Posts.list_query.
  destruct (Posts.given search), (Posts.given category), (Posts.is_true featured);
    reflexivity.
Qed.

(** X6: the SQL text depends only on which parameters are given and on
    whether [featured] is 'true', never on what [search] or [category]
    say: their text reaches the database as bound values only. *)
Theorem list_query_text_fixed search category featured :
  fst (Posts.list_query search category featured)
  = fst (Posts.list_query (Posts.presence search) (Posts.presence category)
           (if Posts.is_true featured then Some "true" else None)).
Proof.
  unfold Posts.list_query, Posts.presence.
  destruct (Posts.given search), (Posts.given category), (Posts.is_true featured);
    reflexivity.
Qed.

(** ** The upload route as a whole *)

Lemma processImage_frame E buf name w p :
  p <> outputPath E name ->
  files (snd (processImage E buf name w)) !! p = files w !! p.
Proof.
  intros Hp. pose proof (processImage_run E buf name w) as R.
  inversion R as [e Hm | md e left Hm Ht | md bytes e Hm Ht Hs | md bytes Hm Ht Hs];
    try destruct left; cbn [record_event write_file files];
    rewrite ?lookup_insert_ne by congruence; reflexivity.
Qed.

Lemma processImage_calls E buf name w :
  log (snd (processImage E buf name w)) =
  log w ++
  match metadata_of E buf with
  | inl _ => [EvMetadata]
  | inr md =>
    match toFile_of E buf (resizeOptions md) webpOptions with
    | WriteFailed _ _ => [EvMetadata; EvToFile (outputPath E name)]
    | Written _ => run_calls (outputPath E name)
    end
  end.
Proof.
  pose proof (processImage_run E buf name w) as R.
  inversion R as [e Hm | md e left Hm Ht | md bytes e Hm Ht Hs | md bytes Hm Ht Hs];
    rewrite Hm; try rewrite Ht; try destruct left;
    cbn [record_event write_file log]; rewrite <- ?app_assoc; reflexivity.
Qed.

(** X7: the route answers 401 exactly when the session has no user id, and
    then nothing else happens: no file is read, nothing is decoded or
    stored. *)
Theorem unauthenticated_upload E req w :
  (authenticated req = false <->
   exists body, fst (upload_route E req w) = Json 401 body) /\
  (authenticated req = false ->
   upload_route E req w = (Json 401 (ErrorBody "Authentication required"), w)).
Proof.
  unfold upload_route. destruct (authenticated req) eqn:A.
  - split; [| discriminate]. split; [discriminate |]. intros (body & H).
    destruct (upload_single (image_part req)) as [err | [f |]]; cbn in H;
      try discriminate.
    destruct (processImage E (buffer f) (f_originalname f) w) as [[img | e] w1];
      discriminate.
  - split; [| reflexivity]. split; [eauto | reflexivity].
Qed.

(** X8: for a file that reached the handler, the handler answers with JSON
    status 500 and the one fixed message exactly when [processImage]
    threw, and it produces no other error body: the text of the library's
    or the file system's error is not in its reply, and its fallback text
    is never used.  Errors that multer raises before the handler are not
    replies of the handler; they go to the framework's error handling. *)
Theorem processing_failure_reply E f w :
  ((exists e, fst (processImage E (buffer f) (f_originalname f) w) = Throw e) <->
   fst (upload_handler E (Some f) w)
   = Json 500 (ErrorBody "Failed to process image. Please try a different image.")) /\
  (forall status error,
     fst (upload_handler E (Some f) w) = Json status (ErrorBody error) ->
     status = 500 /\
     error = "Failed to process image. Please try a different image.").
Proof.
  unfold upload_handler.
  pose proof (processImage_run E (buffer f) (f_originalname f) w) as R.
  destruct (processImage E (buffer f) (f_originalname f) w) as [[img | e] w1];
    cbn [fst snd] in *.
  - split; [split; [intros (e & H); discriminate | discriminate] |].
    intros status error H. discriminate.
  - assert (e = processError) as -> by (inversion R; reflexivity).
    split; [split; [reflexivity | eauto] |].
    intros status error H. injection H as <- <-. split; reflexivity.
Qed.

(** X9: a successful reply names the stored file: its [url] is "/uploads/"
    followed by [filename], the file is in storage under "uploads/" followed
    by [filename], [size] is its byte length, [originalName] is the name
    that was uploaded, and [filename] has no path separator. *)
Theorem upload_reply_matches_storage E req part w :
  image_part req = Some part ->
  succeeded (fst (upload_route E req w)) = true ->
  exists filename bytes dims,
    fst (upload_route E req w)
      = Json 200 (UploadBody ("/uploads/" +:+ filename) filename (originalname part)
                    (Z.of_nat (length bytes)) dims
                    "Image uploaded and optimized successfully") /\
    files (snd (upload_route E req w)) !! ("uploads/" +:+ filename) = Some bytes /\
    no_slash filename = true.
Proof.
  intros Hp H.
  destruct (upload_route_success E req part w Hp H) as (md & bytes & _ & _ & ->).
  eexists _, bytes, _. cbn [fst snd]. split; [reflexivity |]. split.
  - cbn [record_event write_file files]. apply lookup_insert_eq.
  - apply outputFilename_no_slash.
Qed.

Lemma upload_reply_matches_storage_witness :
  exists filename bytes dims,
    fst (upload_route (Demo.env 800 600) (Demo.image_request "photo.jpg")
           Demo.empty_world)
      = Json 200 (UploadBody ("/uploads/" +:+ filename) filename "photo.jpg"
                    (Z.of_nat (length bytes)) dims
                    "Image uploaded and optimized successfully") /\
    files (snd (upload_route (Demo.env 800 600) (Demo.image_request "photo.jpg")
                  Demo.empty_world)) !! ("uploads/" +:+ filename) = Some bytes /\
    no_slash filename = true.
Proof.
  apply (upload_reply_matches_storage (Demo.env 800 600)
           (Demo.image_request "photo.jpg")
           {| originalname := "photo.jpg"; mimetype := "image/jpeg";
              content := Demo.jpeg_bytes |} Demo.empty_world).
  - reflexivity.
  - vm_compute. reflexivity.
Defined.

(** X10: a request changes storage at most under the one name allocated for
    its file; every other stored file is as it was, whatever the reply. *)
Theorem upload_touches_one_path E req w p :
  (forall part, image_part req = Some part -> p <> outputPath E (originalname part)) ->
  files (snd (upload_route E req w)) !! p = files w !! p.
Proof.
  intros Hp. unfold upload_route. destruct (authenticated req); [| reflexivity].
  destruct (image_part req) as [part |] eqn:P; [| reflexivity].
  unfold upload_single. destruct (fileFilter part) as [err | [|]]; try reflexivity.
  destruct (fileSize <? Z.of_nat (length (content part))); [reflexivity |].
  unfold upload_handler. cbn [buffer f_originalname].
  pose proof (processImage_frame E (content part) (originalname part) w p
                (Hp part eq_refl)) as F.
  destruct (processImage E (content part) (originalname part) w) as [[img | e] w1];
    exact F.
Qed.

Lemma upload_touches_one_path_witness :
  files (snd (upload_route (Demo.env 800 600) (Demo.image_request "photo.jpg")
                Demo.empty_world)) !! "uploads/other.webp"
  = files Demo.empty_world !! "uploads/other.webp".
Proof.
  apply (upload_touches_one_path (Demo.env 800 600) (Demo.image_request "photo.jpg")
           Demo.empty_world "uploads/other.webp").
  intros part H. injection H as <-. vm_compute. discriminate.
Defined.

(** X11: the image library and the file system are called only for a
    request that is authenticated, declared as an image and within the
    size limit; for every other request the log of outside calls is
    unchanged. *)
Theorem outside_calls_only_when_accepted E req w :
  log (snd (upload_route E req w)) = log w \/
  (authenticated req = true /\
   exists part, image_part req = Some part /\
                JS.startsWith (mimetype part) "image/" = true /\
                Z.of_nat (length (content part)) <= fileSize).
Proof.
  unfold upload_route. destruct (authenticated req); [| left; reflexivity].
  destruct (image_part req) as [part |]; [| left; reflexivity].
  unfold upload_single, fileFilter.
  destruct (JS.startsWith (mimetype part) "image/") eqn:M; [| left; reflexivity].
  destruct (Z.ltb_spec fileSize (Z.of_nat (length (content part)))) as [L | L];
    [left; reflexivity |].
  right. split; [reflexivity |]. exists part. repeat split; assumption.
Qed.

(** X12: [processImage] always asks for the metadata first; it writes only
    after the decode succeeded and measures only after the write
    succeeded, so its outside calls are a start of decode, write,
    measure. *)
Theorem calls_in_order E buf name w :
  log (snd (processImage E buf name w)) =
  log w ++
  match metadata_of E buf with
  | inl _ => [EvMetadata]
  | inr md =>
    match toFile_of E buf (resizeOptions md) webpOptions with
    | WriteFailed _ _ => [EvMetadata; EvToFile (outputPath E name)]
    | Written _ => run_calls (outputPath E name)
    end
  end.
Proof. apply processImage_calls. Qed.

(** X13: the stored name is not checked against storage: two uploads at the
    same millisecond with the same random draw and the same base name get
    the same stored name, and after both the file holds the output of the
    second. *)
Theorem same_draw_overwrites E1 E2 b1 b2 n1 n2 w i1 w1 i2 w2 :
  Date_now E1 = Date_now E2 ->
  Math_random E1 = Math_random E2 ->
  baseName n1 = baseName n2 ->
  processImage E1 b1 n1 w = (Ok i1, w1) ->
  processImage E2 b2 n2 w1 = (Ok i2, w2) ->
  p_filename i1 = p_filename i2 /\
  exists md1 bytes1 md2 bytes2,
    metadata_of E1 b1 = inr md1 /\
    toFile_of E1 b1 (resizeOptions md1) webpOptions = Written bytes1 /\
    files w1 !! Path.join "uploads" (p_filename i1) = Some bytes1 /\
    metadata_of E2 b2 = inr md2 /\
    toFile_of E2 b2 (resizeOptions md2) webpOptions = Written bytes2 /\
    files w2 !! Path.join "uploads" (p_filename i1) = Some bytes2.
Proof.
  intros Hd Hr Hb R1 R2.
  assert (Hf : outputFilename E1 n1 = outputFilename E2 n2).
  { unfold outputFilename, uniqueSuffix. rewrite Hd, Hr, Hb. reflexivity. }
  apply processImage_inv in R1. apply processImage_inv in R2.
  inversion R1 as [| | | md1 bytes1 Hm1 Ht1 Hs1]; subst.
  inversion R2 as [| | | md2 bytes2 Hm2 Ht2 Hs2]; subst.
  cbn [reported p_filename]. split; [exact Hf |].
  exists md1, bytes1, md2, bytes2.
  repeat split; try assumption.
  - cbn [record_event write_file files]. apply lookup_insert_eq.
  - cbn [record_event write_file files]. unfold outputPath. rewrite <- Hf.
    apply lookup_insert_eq.
Qed.

Lemma same_draw_overwrites_witness :
  p_filename (reported (Demo.env 800 600) "photo.png"
                {| Sharp.width := 800; Sharp.height := 600 |} 8)
  = p_filename (reported Demo2.env_other "photo.jpg"
                  {| Sharp.width := 640; Sharp.height := 480 |} 5) /\
  exists md1 bytes1 md2 bytes2,
    metadata_of (Demo.env 800 600) Demo.jpeg_bytes = inr md1 /\
    toFile_of (Demo.env 800 600) Demo.jpeg_bytes (resizeOptions md1) webpOptions
      = Written bytes1 /\
    files (snd (processImage (Demo.env 800 600) Demo.jpeg_bytes "photo.png"
                  Demo.empty_world))
      !! Path.join "uploads"
           (p_filename (reported (Demo.env 800 600) "photo.png"
                          {| Sharp.width := 800; Sharp.height := 600 |} 8))
      = Some bytes1 /\
    metadata_of Demo2.env_other Demo2.other_bytes = inr md2 /\
    toFile_of Demo2.env_other Demo2.other_bytes (resizeOptions md2) webpOptions
      = Written bytes2 /\
    files (snd (processImage Demo2.env_other Demo2.other_bytes "photo.jpg"
                  (snd (processImage (Demo.env 800 600) Demo.jpeg_bytes "photo.png"
                          Demo.empty_world))))
      !! Path.join "uploads"
           (p_filename (reported (Demo.env 800 600) "photo.png"
                          {| Sharp.width := 800; Sharp.height := 600 |} 8))
      = Some bytes2.
Proof.
  apply (same_draw_overwrites (Demo.env 800 600) Demo2.env_other
           Demo.jpeg_bytes Demo2.other_bytes "photo.png" "photo.jpg"
           Demo.empty_world).
  - reflexivity.
  - reflexivity.
  - vm_compute. reflexivity.
  - vm_compute. reflexivity.
  - vm_compute. reflexivity.
Defined.

Lemma uniqueSuffix_range_witness :
  0 <= uniqueSuffix (Demo.env 800 600) <= 1000000000.
Proof.
  apply (uniqueSuffix_range (Demo.env 800 600)).
  - unfold Qle. simpl. lia.
  - unfold Qlt. simpl. lia.
Defined.
